(** * embedded-ai: voice-activity segmentation and the UART file receiver

    A shallow embedding of
    - [prototype/vox_recorder.py]: the segmentation callback, its buffers and
      the duration gate of [save_audio];
    - [src/RPI_ZERO2/RPI_ZERO2_pc.py]: [crc32_update], [uart_receiver] and the
      mode loop of [main];
    - [src/RPI_ZERO2/RPI_ZERO2_micro.py]: the header parsing and the payload
      loop of [receive_wavs].

    Python integers are [Z]; [bytes] values are [list byte]; [str] values
    are [string]s holding their UTF-8 bytes; [float] seconds are exact
    rationals [Q].  The file store is a [gmap] from path strings to
    contents, in which opening a path for writing always succeeds.  What
    the code reads from its environment (the verdict of the classifier,
    [time.time()], the level of the GPIO pin, what the serial line delivers
    and when) is an explicit input of the model; what it prints is left
    out.

    The definitions come first, module by module; the proofs follow in
    modules of their own. *)

From Stdlib Require Import ZArith QArith List String Ascii Lia Bool.
From Stdlib.Strings Require Import Byte.
From stdpp Require Import gmap strings list fin_maps.

Open Scope Z_scope.

(** ** Rational comparisons used for [float] tests *)

Definition Qltb (x y : Q) : bool := negb (Qle_bool y x).

(** [int(x)] on a [float]: truncation toward zero. *)
Definition int_of_float (q : Q) : Z := Z.quot (Qnum q) (Z.pos (Qden q)).

(** * prototype/vox_recorder.py *)

Module VoxRecorder.

(** ** Config (lines 11-18) *)

Definition sample_rate : Z := 16000.
Definition frame_duration : Z := 30.
Definition frame_size : Z :=
  int_of_float (inject_Z (sample_rate * frame_duration) / 1000)%Q.
Definition silence_threshold : Q := 30.
Definition min_speech_duration : Q := 5.
Definition pre_speech_padding : Q := 1 # 2.
Definition post_speech_padding : Q := 1 # 2.

(** [int(pre_speech_padding * 1000 / frame_duration)], the [maxlen] of
    [pre_speech_buffer] (line 30) and, with the post padding, the bound of
    the replay loop (line 79). *)
Definition padding_frames (padding : Q) : nat :=
  Z.to_nat (int_of_float (padding * 1000 / inject_Z frame_duration)%Q).

Definition pre_speech_maxlen : nat := padding_frames pre_speech_padding.
Definition post_speech_frames : nat := padding_frames post_speech_padding.

(** ** Data *)

(** One invocation of [callback]: the PCM bytes of the block, the verdict of
    [vad.is_speech] on them, and the value [time.time()] has during the
    call. *)
Record frame := Frame {
  f_pcm : list byte;
  f_is_speech : bool;
  f_now : Q
}.

(** The module-level state (lines 28-32) and the wave files written into
    [base_dir], oldest first; a file is the list of frames joined by
    [writeframes]. *)
Record recorder := Recorder {
  recording : bool;
  audio_buffer : list (list byte);
  pre_speech_buffer : list (list byte);
  silence_start_time : option Q;
  speech_frame_count : Z;
  saved : list (list (list byte))
}.

Definition initial : recorder :=
  {| recording := false; audio_buffer := []; pre_speech_buffer := [];
     silence_start_time := None; speech_frame_count := 0; saved := [] |}.

(** [deque(maxlen=n).append(x)]: a full deque drops its oldest item; a deque
    of capacity zero stays empty. *)
Definition deque_append {A} (maxlen : nat) (d : list A) (x : A) : list A :=
  match maxlen with
  | O => []
  | S _ => (if (length d <? maxlen)%nat then d else tail d) ++ [x]
  end.

(** ** save_audio (lines 35-52) *)

Definition speech_duration (count : Z) : Q :=
  (inject_Z (count * frame_duration) / 1000)%Q.

Definition save_audio (frames : list (list byte)) (count : Z)
    (files : list (list (list byte))) : list (list (list byte)) :=
  if Qltb (speech_duration count) min_speech_duration then files
  else files ++ [frames].

(** ** callback (lines 55-87) *)

(** Lines 66-69: speech while idle starts a recording. *)
Definition start_recording (st : recorder) : recorder :=
  {| recording := true;
     audio_buffer := pre_speech_buffer st;
     pre_speech_buffer := pre_speech_buffer st;
     silence_start_time := silence_start_time st;
     speech_frame_count := 0;
     saved := saved st |}.

(** Lines 70-72. *)
Definition speech_frame (st : recorder) (pcm : list byte) : recorder :=
  {| recording := recording st;
     audio_buffer := audio_buffer st ++ [pcm];
     pre_speech_buffer := pre_speech_buffer st;
     silence_start_time := None;
     speech_frame_count := speech_frame_count st + 1;
     saved := saved st |}.

(** Line 79-80: [for _ in range(n): audio_buffer.append(pcm)]. *)
Fixpoint replay (n : nat) (buf : list (list byte)) (pcm : list byte)
    : list (list byte) :=
  match n with
  | O => buf
  | S n' => replay n' (buf ++ [pcm]) pcm
  end.

(** The frames handed to [save_audio] at line 81. *)
Definition finalize_frames (st : recorder) (pcm : list byte)
    : list (list byte) :=
  replay post_speech_frames (audio_buffer st ++ [pcm]) pcm.

(** Lines 78-85. *)
Definition finalize (st : recorder) (pcm : list byte) : recorder :=
  {| recording := false;
     audio_buffer := [];
     pre_speech_buffer := pre_speech_buffer st;
     silence_start_time := None;
     speech_frame_count := 0;
     saved := save_audio (finalize_frames st pcm) (speech_frame_count st)
                (saved st) |}.

(** Lines 73-85: a non-speech frame while recording. *)
Definition silence_frame (st : recorder) (pcm : list byte) (now : Q)
    : recorder :=
  match silence_start_time st with
  | None =>
      {| recording := recording st;
         audio_buffer := audio_buffer st ++ [pcm];
         pre_speech_buffer := pre_speech_buffer st;
         silence_start_time := Some now;
         speech_frame_count := speech_frame_count st;
         saved := saved st |}
  | Some t0 =>
      if Qltb silence_threshold (now - t0)%Q then finalize st pcm
      else
        {| recording := recording st;
           audio_buffer := audio_buffer st ++ [pcm];
           pre_speech_buffer := pre_speech_buffer st;
           silence_start_time := Some t0;
           speech_frame_count := speech_frame_count st;
           saved := saved st |}
  end.

(** Lines 86-87: a non-speech frame while idle. *)
Definition idle_frame (st : recorder) (pcm : list byte) : recorder :=
  {| recording := recording st;
     audio_buffer := audio_buffer st;
     pre_speech_buffer :=
       deque_append pre_speech_maxlen (pre_speech_buffer st) pcm;
     silence_start_time := silence_start_time st;
     speech_frame_count := speech_frame_count st;
     saved := saved st |}.

Definition callback (st : recorder) (fr : frame) : recorder :=
  if f_is_speech fr then
    speech_frame (if recording st then st else start_recording st) (f_pcm fr)
  else if recording st then silence_frame st (f_pcm fr) (f_now fr)
  else idle_frame st (f_pcm fr).

(** The stream delivers the frames one callback at a time. *)
Definition run (st : recorder) (frs : list frame) : recorder :=
  fold_left callback frs st.

(** Lines 95-96: the [KeyboardInterrupt] handler prints and falls out of the
    [with] block. *)
Definition on_keyboard_interrupt (st : recorder) : recorder := st.

(** Lines 90-96: the files present when the process exits after having
    received [frs]. *)
Definition listen (frs : list frame) : list (list (list byte)) :=
  saved (on_keyboard_interrupt (run initial frs)).

(** ** Notions used by the statements *)

(** The callback takes the branch of lines 78-85. *)
Definition finalizes (st : recorder) (fr : frame) : bool :=
  negb (f_is_speech fr) && recording st &&
  match silence_start_time st with
  | Some t0 => Qltb silence_threshold (f_now fr - t0)%Q
  | None => false
  end.

Definition count_speech (frs : list frame) : Z :=
  Z.of_nat (length (filter (fun fr => f_is_speech fr = true) frs)).

(** What a run is apart from its clock: the frames and their verdicts. *)
Definition classified (fr : frame) : list byte * bool :=
  (f_pcm fr, f_is_speech fr).

(** The frames pushed on [pre_speech_buffer] during a run from [st]. *)
Fixpoint idle_frames (st : recorder) (frs : list frame)
    : list (list byte) :=
  match frs with
  | [] => []
  | fr :: frs' =>
      (if negb (f_is_speech fr) && negb (recording st) then [f_pcm fr]
       else []) ++ idle_frames (callback st fr) frs'
  end.

(** Two callbacks that see the same block and verdict, the clock of the
    second being [c] seconds ahead. *)
Definition same_frame_offset (c : Q) (fr1 fr2 : frame) : Prop :=
  classified fr1 = classified fr2 /\ (f_now fr2 == f_now fr1 + c)%Q.

(** States that differ by the same offset in the one clock value stored. *)
Definition offset_states (c : Q) (st1 st2 : recorder) : Prop :=
  recording st1 = recording st2 /\
  audio_buffer st1 = audio_buffer st2 /\
  pre_speech_buffer st1 = pre_speech_buffer st2 /\
  speech_frame_count st1 = speech_frame_count st2 /\
  saved st1 = saved st2 /\
  match silence_start_time st1, silence_start_time st2 with
  | None, None => True
  | Some t1, Some t2 => (t2 == t1 + c)%Q
  | _, _ => False
  end.

(** Test streams: a block of [frame_size] 16-bit samples whose bytes are all
    [b]; [n] speech frames delivered every 30 ms from a given time in
    milliseconds; a silent frame at a given time; [n] silent frames every
    30 ms. *)
Definition block (b : byte) : list byte :=
  replicate (Z.to_nat (2 * frame_size)) b.

Definition speech_from (start_ms : Z) (n : nat) : list frame :=
  map (fun k => Frame (block "001"%byte) true
                  (inject_Z (start_ms + Z.of_nat k * frame_duration)
                     / 1000)%Q)
      (seq 0 n).

Definition speech_burst (n : nat) : list frame := speech_from 0 n.

Definition silence_at (ms : Z) : frame :=
  Frame (block "000"%byte) false (inject_Z ms / 1000)%Q.

Definition silence_from (start_ms : Z) (n : nat) : list frame :=
  map (fun k => silence_at (start_ms + Z.of_nat k * frame_duration))
      (seq 0 n).

(** The last [n] items of a list. *)
Definition last_n {A} (n : nat) (l : list A) : list A :=
  drop (length l - n) l.

(** In the run over [frs], a recording began with the frame [onset], which
    came right after the frames [frs0], and has not ended since: [rest] are
    the frames received after the onset. *)
Definition segment_of (frs frs0 : list frame) (onset : frame)
    (rest : list frame) : Prop :=
  frs = frs0 ++ onset :: rest /\
  recording (run initial frs0) = false /\
  f_is_speech onset = true /\
  forall k, (k <= length rest)%nat ->
    recording (run initial (frs0 ++ onset :: take k rest)) = true.

End VoxRecorder.

(** * binascii.crc32 and crc32_update *)

Module Crc32.

(** ** Definitions *)

Definition mask32 : Z := 0xFFFFFFFF.

(** The reflected CRC-32 polynomial of zlib. *)
Definition poly : Z := 0xEDB88320.

Definition byte_val (b : byte) : Z := Z.of_N (Byte.to_N b).

(** One bit of the shift register. *)
Definition crc_bit (c : Z) : Z :=
  if Z.testbit c 0 then Z.lxor (Z.shiftr c 1) poly else Z.shiftr c 1.

(** One byte: xor it into the low end, then eight shifts. *)
Definition crc_byte (c : Z) (b : byte) : Z :=
  Nat.iter 8 crc_bit (Z.lxor c (byte_val b)).

(** [binascii.crc32(data, value)]: the running value is taken as an unsigned
    32-bit integer; the register is its complement. *)
Definition binascii_crc32 (data : list byte) (value : Z) : Z :=
  Z.lxor (fold_left crc_byte data (Z.lxor (Z.land value mask32) mask32))
         mask32.

(** RPI_ZERO2_pc.py lines 75-76, RPI_ZERO2_micro.py lines 81-82. *)
Definition crc32_update (crc : Z) (data : list byte) : Z :=
  Z.land (binascii_crc32 data crc) 0xFFFFFFFF.

(** The checksum of a whole payload, as a sender computes it. *)
Definition crc32 (data : list byte) : Z := crc32_update 0 data.

Definition u32 (x : Z) : Prop := 0 <= x < 2 ^ 32.

End Crc32.

(** * RPI_ZERO2_pc.py and RPI_ZERO2_micro.py: the UART receiver *)

Module Receiver.

Import Crc32.

(** ** Paths *)

(** RPI_ZERO2_pc.py lines 50-51; RPI_ZERO2_micro.py lines 43-44 build the
    same string. *)
Definition BASE_DIR : string := "/home/pi/wav_pipeline".

Definition is_sep (c : ascii) : bool := (c =? "/")%char.

Definition starts_with_sep (s : string) : bool :=
  match s with
  | String c _ => is_sep c
  | EmptyString => false
  end.

Fixpoint ends_with_sep (s : string) : bool :=
  match s with
  | EmptyString => false
  | String c EmptyString => is_sep c
  | String _ s' => ends_with_sep s'
  end.

(** [os.path.join(a, b)] of posixpath. *)
Definition os_path_join (a b : string) : string :=
  if starts_with_sep b then b
  else if (a =? "")%string || ends_with_sep a then a ++ b
  else a ++ "/" ++ b.

(** [p[p.rfind('/') + 1:]], with [acc] what has been read since the last
    separator. *)
Fixpoint after_last_sep (acc p : string) : string :=
  match p with
  | EmptyString => acc
  | String c p' =>
      if is_sep c then after_last_sep "" p'
      else after_last_sep (acc ++ String c "") p'
  end.

(** [os.path.basename(p)]. *)
Definition os_path_basename (p : string) : string := after_last_sep "" p.

(** [p[:p.rfind('/') + 1]]. *)
Fixpoint through_last_sep (acc p : string) : string :=
  match p with
  | EmptyString => ""
  | String c p' =>
      if is_sep c then acc ++ "/" ++ through_last_sep "" p'
      else through_last_sep (acc ++ String c "") p'
  end.

(** [s.rstrip('/')]. *)
Fixpoint rstrip_sep (s : string) : string :=
  match s with
  | EmptyString => ""
  | String c s' =>
      let r := rstrip_sep s' in
      if is_sep c && (r =? "")%string then "" else String c r
  end.

(** [os.path.dirname(p)]: the head, without its trailing separators unless
    it consists of separators only.  Not called by the receiver; it says
    what the directory of a path is. *)
Definition os_path_dirname (p : string) : string :=
  let head := through_last_sep "" p in
  if (rstrip_sep head =? "")%string then head else rstrip_sep head.

Fixpoint has_sep (s : string) : bool :=
  match s with
  | EmptyString => false
  | String c s' => is_sep c || has_sep s'
  end.

Definition AUDIO_DIR : string := os_path_join BASE_DIR "audio".

(** Line 131 of RPI_ZERO2_pc.py. *)
Definition pc_path (filename : string) : string :=
  os_path_join AUDIO_DIR (os_path_basename filename).

(** Line 115 of RPI_ZERO2_micro.py, where AUDIO_DIR is WORKDIR + "/audio". *)
Definition micro_path (filename : string) : string :=
  (BASE_DIR ++ "/audio") ++ "/" ++ os_path_basename filename.

(** ** Headers *)

(** [s.split(',')]. *)
Fixpoint split_comma_from (cur s : string) : list string :=
  match s with
  | EmptyString => [cur]
  | String c s' =>
      if (c =? ",")%char then cur :: split_comma_from "" s'
      else split_comma_from (cur ++ String c "") s'
  end.

Definition split_comma (s : string) : list string := split_comma_from "" s.

Record header := Header {
  h_filename : string;
  h_size : Z;
  h_crc : option Z
}.

Definition newline : byte := "010"%byte.

Definition bytes_of (s : string) : list byte := list_byte_of_string s.

Definition ACK : list byte := bytes_of "ACK" ++ [newline].
Definition NACK : list byte := bytes_of "NACK" ++ [newline].

(** ** The serial line, the file store and what happens *)

(** [rx]: the bytes the sender puts on the line, in order, not read yet.
    [arrivals]: for each coming read call, how many of them are there before
    the call gives up (its timeout); when the list is empty nothing arrives
    any more.  [tx]: the bytes written to the line. *)
Record serial := Serial {
  rx : list byte;
  arrivals : list nat;
  tx : list byte
}.

Inductive event :=
| EvGpio (high : bool)
| EvSerOpen
| EvSerClose
| EvReadLine (line : list byte)
| EvFileOpen (path : string)
| EvFileWrite (path : string) (chunk : list byte)
| EvFileClose (path : string)
| EvSerWrite (data : list byte)
| EvEnterProcessing
| EvLeaveProcessing.

Record world := World {
  ser : serial;
  files : gmap string (list byte);
  log : list event
}.

Definition emit (e : event) (w : world) : world :=
  World (ser w) (files w) (log w ++ [e]).

(** [ser.read(n)] and [os.read(fd, n)]: at most [n] bytes, fewer or none when
    the call times out. *)
Definition ser_read (n : Z) (s : serial) : list byte * serial :=
  match arrivals s with
  | [] => ([], s)
  | k :: ks =>
      let m := Nat.min (Z.to_nat n) k in
      (take m (rx s), Serial (drop m (rx s)) ks (tx s))
  end.

(** A line up to and including its newline, or all there is. *)
Fixpoint line_prefix (l : list byte) : list byte :=
  match l with
  | [] => []
  | b :: l' => if Byte.eqb b newline then [b] else b :: line_prefix l'
  end.

(** [ser.readline()]: up to the newline, or what came before the timeout. *)
Definition ser_readline (s : serial) : list byte * serial :=
  match arrivals s with
  | [] => ([], s)
  | k :: ks =>
      let line := line_prefix (take k (rx s)) in
      (line, Serial (drop (length line) (rx s)) ks (tx s))
  end.

(** [ser.write(data)] and [os.write(fd, data)]. *)
Definition ser_write (data : list byte) (w : world) : world :=
  World (Serial (rx (ser w)) (arrivals (ser w)) (tx (ser w) ++ data))
        (files w) (log w ++ [EvSerWrite data]).

(** [open(path, 'wb')]: the file is created or truncated. *)
Definition open_wb (path : string) (w : world) : world :=
  World (ser w) (<[path := []]> (files w)) (log w ++ [EvFileOpen path]).

(** [f.write(chunk)]. *)
Definition file_write (path : string) (chunk : list byte) (w : world)
    : world :=
  World (ser w)
        (<[path := default [] (files w !! path) ++ chunk]> (files w))
        (log w ++ [EvFileWrite path chunk]).

(** ** The payload loop

    RPI_ZERO2_pc.py lines 135-144 and RPI_ZERO2_micro.py lines 118-127 are
    the same loop. *)

Record progress := Progress {
  p_world : world;
  received : Z;
  crc : Z
}.

(** The body of the loop, entered with [received < file_size]. *)
Definition recv_chunk (path : string) (file_size : Z)
    (expected_crc : option Z) (p : progress) : progress :=
  let w := p_world p in
  let '(chunk, s') :=
    ser_read (Z.min (file_size - received p) 1024) (ser w) in
  let w' := World s' (files w) (log w) in
  match chunk with
  | [] => Progress w' (received p) (crc p)
  | _ =>
      Progress (file_write path chunk w')
               (received p + Z.of_nat (length chunk))
               (match expected_crc with
                | Some _ => crc32_update (crc p) chunk
                | None => crc p
                end)
  end.

(** [while received < file_size]; without fuel left the loop is still
    running. *)
Fixpoint recv_loop (fuel : nat) (path : string) (file_size : Z)
    (expected_crc : option Z) (p : progress) : progress * bool :=
  if received p <? file_size then
    match fuel with
    | O => (p, false)
    | S fuel' =>
        recv_loop fuel' path file_size expected_crc
          (recv_chunk path file_size expected_crc p)
    end
  else (p, true).

(** Every turn of the loop uses up one read call; once no byte arrives any
    more the loop spins for ever. *)
Definition recv_payload (path : string) (file_size : Z)
    (expected_crc : option Z) (w : world) : progress * bool :=
  recv_loop (length (arrivals (ser w))) path file_size expected_crc
    (Progress w 0 0).

(** The test of pc line 146 and micro line 128. *)
Definition transfer_ok (file_size : Z) (expected_crc : option Z)
    (p : progress) : bool :=
  (received p =? file_size) &&
  match expected_crc with
  | None => true
  | Some c => crc p =? c
  end.

(** The running checksum after the chunks that make up [data]: it is only
    kept when the header declares one. *)
Definition crc_after (expected_crc : option Z) (c : Z) (data : list byte)
    : Z :=
  match expected_crc with
  | Some _ => crc32_update c data
  | None => c
  end.

(** The condition of the protocol on the bytes [data] received for the
    header [h]: as many as declared and, when a checksum is declared, the
    CRC-32 of [data] equal to it. *)
Definition accepted (h : header) (data : list byte) : bool :=
  (Z.of_nat (length data) =? h_size h) &&
  match h_crc h with
  | None => true
  | Some c => crc32 data =? c
  end.

(** The line holds at least [n] bytes and its coming read calls, none of
    which takes more than 1024 bytes, see at least [n] bytes arrive. *)
Definition delivers (n : nat) (s : serial) : Prop :=
  (n <= length (rx s))%nat /\
  (n <= sum_list_with (Nat.min 1024) (arrivals s))%nat.

(** pc lines 134-147, micro lines 117-129: the boolean is [false] when the
    payload loop never ends. *)
Definition receive_file (path : string) (h : header) (w : world)
    : world * bool :=
  let '(p, finished) :=
    recv_payload path (h_size h) (h_crc h) (open_wb path w) in
  if finished then
    (ser_write (if transfer_ok (h_size h) (h_crc h) p then ACK else NACK)
               (emit (EvFileClose path) (p_world p)),
     true)
  else (p_world p, false).

(** ** The receivers *)

Section Builtins.

(** Python's own functions, on [str] values kept as their UTF-8 bytes:
    [bytes.decode()] ([None]: UnicodeDecodeError), [str.strip()], [int(s)]
    and [int(s, 0)] ([None]: ValueError). *)
Variable decode : list byte -> option string.
Variable strip : string -> string.
Variable py_int : string -> option Z.
Variable py_int0 : string -> option Z.

(** The part of [process_day] the receiver can see: what it does to the
    files (transcripts written, wave files purged). *)
Variable process_day : gmap string (list byte) -> gmap string (list byte).

(** pc lines 112-129. *)
Definition pc_parse_header (text : string) : option header :=
  match split_comma text with
  | filename :: size_str :: more =>
      match py_int size_str with
      | None => None
      | Some file_size =>
          Some (Header filename file_size
                  (match more with
                   | c :: _ => py_int0 c
                   | [] => None
                   end))
      end
  | _ => None
  end.

(** micro lines 108-114: any exception rejects the header. *)
Definition micro_parse_header (text : string) : option header :=
  match split_comma text with
  | filename :: size :: crc_part =>
      match py_int size with
      | None => None
      | Some size' =>
          match crc_part with
          | [] => Some (Header filename size' None)
          | c :: _ =>
              match py_int0 c with
              | Some v => Some (Header filename size' (Some v))
              | None => None
              end
          end
      end
  | _ => None
  end.

(** pc lines 104-148: one turn of the loop after the pin was read low. *)
Definition receive_one (w : world) : world * bool :=
  let '(header_line, s') := ser_readline (ser w) in
  let w1 := emit (EvReadLine header_line) (World s' (files w) (log w)) in
  match header_line with
  | [] => (w1, true)
  | _ =>
      match decode header_line with
      | None => (w1, true)
      | Some text =>
          match pc_parse_header (strip text) with
          | None => (w1, true)
          | Some h => receive_file (pc_path (h_filename h)) h w1
          end
      end
  end.

Inductive outcome := Returned | Hung | Pending.

(** pc lines 96-148, called with [stop_when_high=True] (line 301); [gpio]
    are the levels the coming calls of [GPIO.input] read.  [Hung]: a payload
    loop never ends; [Pending]: the loop goes on beyond the levels given. *)
Fixpoint receiver_loop (gpio : list bool) (w : world)
    : list bool * world * outcome :=
  match gpio with
  | [] => ([], w, Pending)
  | true :: gpio' => (gpio', emit EvSerClose (emit (EvGpio true) w), Returned)
  | false :: gpio' =>
      match receive_one (emit (EvGpio false) w) with
      | (w', true) => receiver_loop gpio' w'
      | (w', false) => (gpio', w', Hung)
      end
  end.

(** pc lines 91-148. *)
Definition uart_receiver (gpio : list bool) (w : world)
    : list bool * world * outcome :=
  receiver_loop gpio (emit EvSerOpen w).

(** pc lines 296-297. *)
Fixpoint wait_low (gpio : list bool) (w : world) : list bool * world * bool :=
  match gpio with
  | [] => ([], w, false)
  | true :: gpio' => wait_low gpio' (emit (EvGpio true) w)
  | false :: gpio' => (gpio', emit (EvGpio false) w, true)
  end.

(** pc lines 288-302: [fuel] turns of the mode loop. *)
Fixpoint main_loop (fuel : nat) (gpio : list bool) (w : world)
    : list bool * world :=
  match fuel with
  | O => (gpio, w)
  | S fuel' =>
      match gpio with
      | [] => ([], w)
      | true :: gpio1 =>
          let w1 := emit (EvGpio true) w in
          match gpio1 with
          | [] => ([], w1)
          | true :: gpio2 =>
              let w2 := emit EvEnterProcessing (emit (EvGpio true) w1) in
              let w3 := World (ser w2) (process_day (files w2)) (log w2) in
              match wait_low gpio2 w3 with
              | (gpio3, w4, true) =>
                  main_loop fuel' gpio3 (emit EvLeaveProcessing w4)
              | (gpio3, w4, false) => (gpio3, w4)
              end
          | false :: gpio2 => main_loop fuel' gpio2 (emit (EvGpio false) w1)
          end
      | false :: gpio1 =>
          match uart_receiver gpio1 (emit (EvGpio false) w) with
          | (gpio2, w', Returned) => main_loop fuel' gpio2 w'
          | (gpio2, w', _) => (gpio2, w')
          end
      end
  end.

(** micro lines 106-130: what is done with a header once lines 100-105 have
    put it together. *)
Definition micro_handle_header (header_bytes : list byte) (w : world)
    : world * bool :=
  match header_bytes with
  | [] => (w, true)
  | _ =>
      match decode header_bytes with
      | None => (w, true)
      | Some text =>
          match micro_parse_header text with
          | None => (w, true)
          | Some h => receive_file (micro_path (h_filename h)) h w
          end
      end
  end.

End Builtins.

(** ** The order of events

    Where the program of RPI_ZERO2_pc.py is, as far as the events tell:
    in [main] with the port closed ([Idle], [Debounce] after a first high
    level, [Confirmed] after the second, [Starting] after a low one), in
    State B ([Processing], [Resuming] once the pin was read low), or in
    [uart_receiver]: at the top of its loop ([Listening], with a header just
    read or not), after the poll ([Polled] low, [Leaving] high), inside a
    transfer ([InTransfer], [Replying]). *)
Inductive phase :=
| Idle
| Debounce
| Confirmed
| Starting
| Processing
| Resuming
| Listening (after_header : bool)
| Polled
| Leaving
| InTransfer (path : string)
| Replying.

(** The events each phase allows, and where they lead. *)
Definition phase_step (ph : phase) (e : event) : option phase :=
  match ph, e with
  | Idle, EvGpio true => Some Debounce
  | Idle, EvGpio false => Some Starting
  | Debounce, EvGpio true => Some Confirmed
  | Debounce, EvGpio false => Some Idle
  | Confirmed, EvEnterProcessing => Some Processing
  | Processing, EvGpio true => Some Processing
  | Processing, EvGpio false => Some Resuming
  | Resuming, EvLeaveProcessing => Some Idle
  | Starting, EvSerOpen => Some (Listening false)
  | Listening _, EvGpio false => Some Polled
  | Listening _, EvGpio true => Some Leaving
  | Leaving, EvSerClose => Some Idle
  | Polled, EvReadLine _ => Some (Listening true)
  | Listening true, EvFileOpen path => Some (InTransfer path)
  | InTransfer path, EvFileWrite path' _ =>
      if String.eqb path path' then Some (InTransfer path) else None
  | InTransfer path, EvFileClose path' =>
      if String.eqb path path' then Some Replying else None
  | Replying, EvSerWrite _ => Some (Listening false)
  | _, _ => None
  end.

Fixpoint run_phase (ph : phase) (evs : list event) : option phase :=
  match evs with
  | [] => Some ph
  | e :: evs' =>
      match phase_step ph e with
      | Some ph' => run_phase ph' evs'
      | None => None
      end
  end.

(** [w'] continues the log of [w] with events that lead from [ph] to
    [ph']. *)
Definition continues (w w' : world) (ph ph' : phase) : Prop :=
  exists evs, log w' = log w ++ evs /\ run_phase ph evs = Some ph'.

(** ** An instance of the builtins for ASCII headers

    Used to run the receivers on concrete lines; the statements below hold
    for every choice of the builtins. *)

Definition ascii_decode (bs : list byte) : option string :=
  if forallb (fun b => (Byte.to_N b <? 128)%N) bs
  then Some (string_of_list_byte bs) else None.

Definition is_space (c : ascii) : bool :=
  let n := nat_of_ascii c in
  ((9 <=? n) && (n <=? 13) || (28 <=? n) && (n <=? 32))%nat.

Fixpoint lstrip (l : list ascii) : list ascii :=
  match l with
  | c :: l' => if is_space c then lstrip l' else l
  | [] => []
  end.

Definition ascii_strip (s : string) : string :=
  string_of_list_ascii
    (rev (lstrip (rev (lstrip (list_ascii_of_string s))))).

Definition digit_val (c : ascii) : option Z :=
  let n := nat_of_ascii c in
  if ((48 <=? n) && (n <=? 57))%nat then Some (Z.of_nat (n - 48))
  else if ((97 <=? n) && (n <=? 102))%nat then Some (Z.of_nat (n - 87))
  else if ((65 <=? n) && (n <=? 70))%nat then Some (Z.of_nat (n - 55))
  else None.

(** Digits in [base], single underscores between them; [prev] tells that an
    underscore may come next, [seen] that a digit was read. *)
Fixpoint digits (base acc : Z) (prev seen : bool) (l : list ascii)
    : option Z :=
  match l with
  | [] => if prev && seen then Some acc else None
  | c :: l' =>
      if (c =? "_")%char then
        if prev then digits base acc false seen l' else None
      else
        match digit_val c with
        | Some d =>
            if d <? base then digits base (base * acc + d) true true l'
            else None
        | None => None
        end
  end.

Definition signed (body : list ascii -> option Z) (l : list ascii)
    : option Z :=
  match l with
  | "-"%char :: l' => option_map Z.opp (body l')
  | "+"%char :: l' => body l'
  | _ => body l
  end.

(** [int(s)] on ASCII text. *)
Definition ascii_int (s : string) : option Z :=
  signed (digits 10 0 false false) (list_ascii_of_string (ascii_strip s)).

(** [int(s, 0)] on ASCII text: a Python integer literal. *)
Definition ascii_int0 (s : string) : option Z :=
  signed
    (fun l =>
       match l with
       | "0"%char :: ("x"%char | "X"%char) :: l' => digits 16 0 true false l'
       | "0"%char :: ("o"%char | "O"%char) :: l' => digits 8 0 true false l'
       | "0"%char :: ("b"%char | "B"%char) :: l' => digits 2 0 true false l'
       | "0"%char :: l' => digits 1 0 true true l'
       | _ => digits 10 0 false false l
       end)
    (list_ascii_of_string (ascii_strip s)).

(** The pc receiver with these builtins. *)
Definition ascii_receive_one : world -> world * bool :=
  receive_one ascii_decode ascii_strip ascii_int ascii_int0.

Definition ascii_uart_receiver
    : list bool -> world -> list bool * world * outcome :=
  uart_receiver ascii_decode ascii_strip ascii_int ascii_int0.

(** A world in which [data] is on the line and arrives [k] bytes per read
    call. *)
Definition line_with (data : list byte) (reads : list nat) : world :=
  World (Serial data reads []) ∅ [].

End Receiver.

(** * Notions used by the further properties *)

Module Notions.

Import VoxRecorder Receiver.

(** The frames received since the last speech frame: the longest suffix of
    non-speech frames. *)
Fixpoint trailing_silence (frs : list frame) : list frame :=
  match frs with
  | [] => []
  | fr :: frs' =>
      if forallb (fun f => negb (f_is_speech f)) frs then frs
      else trailing_silence frs'
  end.

(** What holds of the state after any run. *)
Definition state_ok (frs : list frame) (st : recorder) : Prop :=
  (length (pre_speech_buffer st) <= pre_speech_maxlen)%nat /\
  167 * Z.of_nat (length (saved st))
    + (if recording st then speech_frame_count st else 0)
    <= count_speech frs /\
  Forall (fun seg => (185 <= length seg)%nat) (saved st) /\
  if recording st then
    1 <= speech_frame_count st /\
    speech_frame_count st
      + (match silence_start_time st with Some _ => 1 | None => 0 end)
      <= Z.of_nat (length (audio_buffer st))
  else
    audio_buffer st = [] /\ speech_frame_count st = 0 /\
    silence_start_time st = None.

(** The two lines the receiver answers with. *)
Definition is_reply (r : list byte) : Prop := r = ACK \/ r = NACK.

End Notions.

(** * Proofs *)

(** ** Rational comparisons *)

Lemma Qltb_lt (x y : Q) : Qltb x y = true <-> (x < y)%Q.
Proof.
  unfold Qltb. rewrite negb_true_iff. split.
  - intros H. apply Qnot_le_lt. intros Hle.
    apply Qle_bool_iff in Hle. congruence.
  - intros H. destruct (Qle_bool y x) eqn:E; [|reflexivity].
    apply Qle_bool_iff in E. exfalso. exact (Qlt_not_le _ _ H E).
Qed.

Lemma Qltb_ge (x y : Q) : Qltb x y = false <-> (y <= x)%Q.
Proof.
  unfold Qltb. rewrite negb_false_iff. apply Qle_bool_iff.
Qed.

(** ** prototype/vox_recorder.py *)

Module VoxRecorderProofs.

Import VoxRecorder.

(** *** Basic facts *)

Lemma pre_speech_maxlen_val : pre_speech_maxlen = 16%nat.
Proof. reflexivity. Qed.

Lemma post_speech_frames_val : post_speech_frames = 16%nat.
Proof. reflexivity. Qed.

Lemma replay_replicate n buf pcm :
  replay n buf pcm = buf ++ replicate n pcm.
Proof.
  revert buf. induction n as [|n IH]; intros buf; simpl.
  - by rewrite app_nil_r.
  - rewrite IH, <- app_assoc. reflexivity.
Qed.

Lemma finalize_frames_eq st pcm :
  finalize_frames st pcm =
  audio_buffer st ++ [pcm] ++ replicate post_speech_frames pcm.
Proof.
  unfold finalize_frames. rewrite replay_replicate, <- app_assoc.
  reflexivity.
Qed.

Lemma run_snoc st frs fr : run st (frs ++ [fr]) = callback (run st frs) fr.
Proof. unfold run. by rewrite fold_left_app. Qed.

Lemma run_app st frs1 frs2 :
  run st (frs1 ++ frs2) = run (run st frs1) frs2.
Proof. unfold run. apply fold_left_app. Qed.

Lemma count_speech_snoc frs fr :
  count_speech (frs ++ [fr]) =
  count_speech frs + (if f_is_speech fr then 1 else 0).
Proof.
  unfold count_speech. rewrite filter_app, length_app.
  rewrite filter_cons, filter_nil.
  destruct (f_is_speech fr); case_decide; simpl; try congruence; lia.
Qed.

(** The gate of [save_audio], in frames: 167 frames of 30 ms are the first
    to reach five seconds. *)
Lemma gate_frames (n : Z) :
  Qltb (speech_duration n) min_speech_duration = true <-> n < 167.
Proof.
  rewrite Qltb_lt. unfold speech_duration, min_speech_duration, Qlt,
    Qdiv, Qmult, Qinv, inject_Z, frame_duration. simpl. lia.
Qed.

Lemma finalizes_callback st fr :
  finalizes st fr = true -> callback st fr = finalize st (f_pcm fr).
Proof.
  unfold finalizes, callback, silence_frame.
  destruct (f_is_speech fr); simpl; [discriminate|].
  destruct (recording st); simpl; [|discriminate].
  destruct (silence_start_time st) as [t0|]; [|discriminate].
  intros ->. reflexivity.
Qed.

Lemma not_finalizes_saved st fr :
  finalizes st fr = false -> saved (callback st fr) = saved st.
Proof.
  unfold finalizes, callback, silence_frame.
  destruct (f_is_speech fr); simpl.
  - destruct (recording st); reflexivity.
  - destruct (recording st); simpl; [|reflexivity].
    destruct (silence_start_time st) as [t0|]; [|reflexivity].
    intros ->. reflexivity.
Qed.

(** *** The shape of the state along a run *)

Lemma segment_of_snoc frs frs0 onset rest fr :
  segment_of frs frs0 onset rest ->
  recording (run initial (frs ++ [fr])) = true ->
  segment_of (frs ++ [fr]) frs0 onset (rest ++ [fr]).
Proof.
  intros (Hfrs & Hidle & Hon & Hrec) Hnew. subst frs.
  repeat split; try assumption.
  - rewrite <- app_assoc. reflexivity.
  - intros k Hk. rewrite length_app in Hk. simpl in Hk.
    destruct (decide (k <= length rest)%nat) as [Hle|Hgt].
    + rewrite take_app_le by lia. apply Hrec, Hle.
    + assert (k = S (length rest)) as -> by lia.
      rewrite take_ge by (rewrite length_app; simpl; lia).
      rewrite <- app_assoc in Hnew. exact Hnew.
Qed.

Lemma segment_of_onset frs fr :
  recording (run initial frs) = false ->
  f_is_speech fr = true ->
  recording (run initial (frs ++ [fr])) = true ->
  segment_of (frs ++ [fr]) frs fr [].
Proof.
  intros Hidle Hsp Hnew. repeat split; try assumption.
  intros k Hk. simpl in Hk. assert (k = 0%nat) as -> by lia.
  exact Hnew.
Qed.

Lemma callback_continues st fr :
  recording st = true -> recording (callback st fr) = true ->
  audio_buffer (callback st fr) = audio_buffer st ++ [f_pcm fr] /\
  speech_frame_count (callback st fr) =
    speech_frame_count st + (if f_is_speech fr then 1 else 0) /\
  pre_speech_buffer (callback st fr) = pre_speech_buffer st.
Proof.
  unfold callback, silence_frame. intros Hrec.
  destruct (f_is_speech fr); rewrite Hrec; simpl; [auto|].
  destruct (silence_start_time st) as [t0|]; simpl.
  - destruct (Qltb _ _); simpl; [discriminate|].
    intros _. repeat split; lia.
  - intros _. repeat split; lia.
Qed.

Lemma callback_onset st fr :
  recording st = false -> recording (callback st fr) = true ->
  f_is_speech fr = true /\
  audio_buffer (callback st fr) = pre_speech_buffer st ++ [f_pcm fr] /\
  speech_frame_count (callback st fr) = 1 /\
  pre_speech_buffer (callback st fr) = pre_speech_buffer st.
Proof.
  unfold callback. intros Hrec.
  destruct (f_is_speech fr); rewrite Hrec; simpl; [auto|].
  intros H. congruence.
Qed.

Lemma callback_idle st fr :
  (recording st = false ->
   audio_buffer st = [] /\ speech_frame_count st = 0 /\
   silence_start_time st = None) ->
  recording (callback st fr) = false ->
  audio_buffer (callback st fr) = [] /\
  speech_frame_count (callback st fr) = 0 /\
  silence_start_time (callback st fr) = None.
Proof.
  unfold callback, silence_frame. intros Hidle.
  destruct (f_is_speech fr).
  - destruct (recording st) eqn:Hrec; simpl; [congruence|discriminate].
  - destruct (recording st) eqn:Hrec; simpl.
    + destruct (silence_start_time st) as [t0|]; simpl.
      * destruct (Qltb _ _); simpl; [auto|congruence].
      * congruence.
    + intros _. auto.
Qed.

Lemma run_shape (frs : list frame) :
  let st := run initial frs in
  if recording st then
    exists frs0 onset rest,
      segment_of frs frs0 onset rest /\
      audio_buffer st =
        pre_speech_buffer (run initial frs0) ++ map f_pcm (onset :: rest) /\
      speech_frame_count st = count_speech (onset :: rest) /\
      pre_speech_buffer st = pre_speech_buffer (run initial frs0)
  else
    audio_buffer st = [] /\ speech_frame_count st = 0 /\
    silence_start_time st = None.
Proof.
  induction frs as [|fr frs IH] using rev_ind; [by cbn|].
  cbn zeta in *.
  destruct (recording (run initial (frs ++ [fr]))) eqn:Hnew.
  - destruct (recording (run initial frs)) eqn:Hrec.
    + destruct IH as (frs0 & onset & rest & Hseg & Hbuf & Hcnt & Hpre).
      exists frs0, onset, (rest ++ [fr]).
      split; [by apply segment_of_snoc|].
      rewrite run_snoc in Hnew |- *.
      destruct (callback_continues _ fr Hrec Hnew) as (Hb & Hc & Hp).
      change (onset :: rest ++ [fr]) with ((onset :: rest) ++ [fr]).
      rewrite Hb, Hc, Hp, Hbuf, Hcnt, Hpre, map_app, count_speech_snoc.
      rewrite <- app_assoc. auto.
    + exists frs, fr, [].
      rewrite run_snoc in Hnew.
      destruct (callback_onset _ fr Hrec Hnew) as (Hsp & Hb & Hc & Hp).
      split; [apply segment_of_onset; auto; by rewrite run_snoc|].
      rewrite run_snoc, Hb, Hc, Hp. repeat split.
      unfold count_speech. rewrite filter_cons, filter_nil.
      case_decide; [reflexivity|congruence].
  - rewrite run_snoc in Hnew |- *. apply callback_idle; [|exact Hnew].
    intros Hrec. rewrite Hrec in IH. exact IH.
Qed.

Lemma finalize_shape (frs : list frame) (fr : frame) :
  finalizes (run initial frs) fr = true ->
  exists frs0 onset rest,
    segment_of frs frs0 onset rest /\
    finalize_frames (run initial frs) (f_pcm fr) =
      pre_speech_buffer (run initial frs0)
        ++ map f_pcm (onset :: rest ++ [fr])
        ++ replicate post_speech_frames (f_pcm fr) /\
    speech_frame_count (run initial frs) =
      count_speech (onset :: rest ++ [fr]).
Proof.
  intros Hfin. pose proof (run_shape frs) as Hshape. cbn zeta in Hshape.
  unfold finalizes in Hfin.
  destruct (f_is_speech fr) eqn:Hsp; [discriminate|].
  destruct (recording (run initial frs)); [|discriminate].
  destruct Hshape as (frs0 & onset & rest & Hseg & Hbuf & Hcnt & _).
  exists frs0, onset, rest. split; [exact Hseg|]. split.
  - rewrite finalize_frames_eq, Hbuf.
    change (onset :: rest ++ [fr]) with ((onset :: rest) ++ [fr]).
    rewrite map_app. simpl. rewrite <- !app_assoc. reflexivity.
  - change (onset :: rest ++ [fr]) with ((onset :: rest) ++ [fr]).
    rewrite count_speech_snoc, Hsp, Hcnt. lia.
Qed.

(** *** The pre-roll buffer *)

Lemma last_n_all {A} n (l : list A) :
  (length l <= n)%nat -> last_n n l = l.
Proof.
  intros H. unfold last_n. replace (length l - n)%nat with 0%nat by lia.
  reflexivity.
Qed.

Lemma last_n_length {A} n (l : list A) : (length (last_n n l) <= n)%nat.
Proof. unfold last_n. rewrite length_drop. lia. Qed.

Lemma last_n_app {A} n (l l' : list A) :
  last_n n (last_n n l ++ l') = last_n n (l ++ l').
Proof.
  unfold last_n. rewrite !drop_app, !length_app, !length_drop, drop_drop.
  f_equal; f_equal; lia.
Qed.

Lemma deque_append_last_n {A} n (d : list A) x :
  (length d <= n)%nat -> deque_append n d x = last_n n (d ++ [x]).
Proof.
  intros Hlen. unfold deque_append, last_n. rewrite length_app. simpl.
  destruct n as [|n].
  - rewrite drop_ge; [reflexivity|]. rewrite length_app. simpl. lia.
  - destruct (Nat.ltb_spec (length d) (S n)) as [Hlt|Hge].
    + replace (length d + 1 - S n)%nat with 0%nat by lia. reflexivity.
    + replace (length d + 1 - S n)%nat with 1%nat by lia.
      destruct d; [simpl in Hge; lia|reflexivity].
Qed.

Lemma pre_speech_buffer_run st frs :
  (length (pre_speech_buffer st) <= pre_speech_maxlen)%nat ->
  pre_speech_buffer (run st frs) =
    last_n pre_speech_maxlen (pre_speech_buffer st ++ idle_frames st frs).
Proof.
  revert st. induction frs as [|fr frs IH]; intros st Hlen.
  - simpl. rewrite app_nil_r, last_n_all by exact Hlen. reflexivity.
  - change (run st (fr :: frs)) with (run (callback st fr) frs).
    cbn [idle_frames].
    assert (Hstep : pre_speech_buffer (callback st fr) =
      last_n pre_speech_maxlen (pre_speech_buffer st ++
        (if negb (f_is_speech fr) && negb (recording st) then [f_pcm fr]
         else []))).
    { unfold callback, silence_frame.
      destruct (f_is_speech fr); cbn [negb andb].
      - destruct (recording st); cbn [pre_speech_buffer speech_frame
          start_recording];
          rewrite app_nil_r, last_n_all by exact Hlen; reflexivity.
      - destruct (recording st); cbn [negb andb].
        + destruct (silence_start_time st); [destruct (Qltb _ _)|];
            cbn [pre_speech_buffer finalize];
            rewrite app_nil_r, last_n_all by exact Hlen; reflexivity.
        + cbn [pre_speech_buffer idle_frame].
          apply deque_append_last_n, Hlen. }
    rewrite IH by (rewrite Hstep; apply last_n_length).
    rewrite Hstep, last_n_app, <- app_assoc. reflexivity.
Qed.

Lemma pre_speech_buffer_initial frs :
  pre_speech_buffer (run initial frs) =
    last_n pre_speech_maxlen (idle_frames initial frs).
Proof.
  rewrite pre_speech_buffer_run by (simpl; lia). reflexivity.
Qed.

(** *** Gating (C2) *)

Lemma save_audio_kept frames count files :
  (min_speech_duration <= speech_duration count)%Q ->
  save_audio frames count files = files ++ [frames].
Proof.
  intros H. unfold save_audio. apply Qltb_ge in H. rewrite H. reflexivity.
Qed.

Lemma save_audio_discarded frames count files :
  (speech_duration count < min_speech_duration)%Q ->
  save_audio frames count files = files.
Proof.
  intros H. unfold save_audio. apply Qltb_lt in H. rewrite H. reflexivity.
Qed.

Lemma snoc_neq {A} (l : list A) x : l ++ [x] <> l.
Proof.
  intros H. apply (f_equal length) in H. rewrite length_app in H.
  simpl in H. lia.
Qed.

(** C2: when the callback finalizes a segment, a wave file is appended to the
    files saved if and only if the number of speech-classified frames of
    that segment (from its onset frame to the finalizing frame) times the
    frame duration is at least [min_speech_duration]; below the minimum
    nothing is saved; and a callback that does not finalize saves nothing. *)
Theorem segment_saved_iff_min_speech (frs : list frame) (fr : frame) :
  let st := run initial frs in
  (finalizes st fr = false -> saved (callback st fr) = saved st) /\
  (finalizes st fr = true ->
   exists frs0 onset rest,
     segment_of frs frs0 onset rest /\
     ((min_speech_duration
         <= speech_duration (count_speech (onset :: rest ++ [fr])))%Q <->
      saved (callback st fr) = saved st ++ [finalize_frames st (f_pcm fr)])
     /\
     ((speech_duration (count_speech (onset :: rest ++ [fr]))
         < min_speech_duration)%Q <->
      saved (callback st fr) = saved st)).
Proof.
  cbn zeta. split; [apply not_finalizes_saved|].
  intros Hfin.
  destruct (finalize_shape frs fr Hfin)
    as (frs0 & onset & rest & Hseg & _ & Hcnt).
  exists frs0, onset, rest. split; [exact Hseg|].
  rewrite (finalizes_callback _ _ Hfin), <- Hcnt.
  cbn [saved finalize].
  set (n := speech_frame_count (run initial frs)).
  destruct (Qlt_le_dec (speech_duration n) min_speech_duration) as [Hlt|Hge].
  - rewrite save_audio_discarded by exact Hlt. split; split; intros H.
    + exfalso. exact (Qlt_not_le _ _ Hlt H).
    + exfalso. symmetry in H. exact (snoc_neq _ _ H).
    + reflexivity.
    + exact Hlt.
  - rewrite save_audio_kept by exact Hge. split; split; intros H.
    + reflexivity.
    + exact Hge.
    + exfalso. exact (Qlt_not_le _ _ H Hge).
    + exfalso. exact (snoc_neq _ _ H).
Qed.

Lemma segment_saved_iff_min_speech_witness :
  let frs := speech_burst 167 ++ [silence_at 5010] in
  let fr := silence_at 36000 in
  finalizes (run initial frs) fr = true /\
  exists frs0 onset rest,
     segment_of frs frs0 onset rest /\
     ((min_speech_duration
         <= speech_duration (count_speech (onset :: rest ++ [fr])))%Q <->
      saved (callback (run initial frs) fr) =
        saved (run initial frs)
          ++ [finalize_frames (run initial frs) (f_pcm fr)])
     /\
     ((speech_duration (count_speech (onset :: rest ++ [fr]))
         < min_speech_duration)%Q <->
      saved (callback (run initial frs) fr) = saved (run initial frs)).
Proof.
  cbn zeta. split; [vm_compute; reflexivity|].
  apply (proj2 (segment_saved_iff_min_speech
                  (speech_burst 167 ++ [silence_at 5010])
                  (silence_at 36000))).
  vm_compute; reflexivity.
Defined.

Example saved_after_long_speech :
  map length (listen (speech_burst 167
                        ++ [silence_at 5010; silence_at 36000]))
  = [185%nat].
Proof. vm_compute. reflexivity. Qed.

(** 40 frames of silence, 200 of speech, 1200 of silence, 30 ms apart: one
    segment is saved, made of the 16 frames of pre-roll, the 200 speech
    frames, the 1002 silent frames up to the one that sees more than 30 s
    of silence, and 16 replayed frames. *)
Example silence_speech_silence :
  let frs := silence_from 0 40 ++ speech_from 1200 200
               ++ silence_from 7200 1200 in
  map length (listen frs) = [(16 + 200 + 1002 + 16)%nat] /\
  finalizes (run initial (take 1241 frs)) (silence_at 37230) = true /\
  speech_duration (speech_frame_count (run initial (take 1241 frs))) == 6.
Proof. vm_compute. repeat split. Qed.

Example discarded_after_short_speech :
  listen (speech_burst 166 ++ [silence_at 4980; silence_at 36000]) = [].
Proof. vm_compute. reflexivity. Qed.

(** *** Pre-roll (C5) *)

Lemma saved_run_snoc frs fr :
  finalizes (run initial frs) fr = false /\
    saved (run initial (frs ++ [fr])) = saved (run initial frs) \/
  finalizes (run initial frs) fr = true /\
    (saved (run initial (frs ++ [fr])) = saved (run initial frs) \/
     saved (run initial (frs ++ [fr])) =
       saved (run initial frs)
         ++ [finalize_frames (run initial frs) (f_pcm fr)]).
Proof.
  rewrite run_snoc.
  destruct (finalizes (run initial frs) fr) eqn:Hfin.
  - right. split; [reflexivity|].
    rewrite (finalizes_callback _ _ Hfin). cbn [saved finalize].
    unfold save_audio. destruct (Qltb _ _); auto.
  - left. split; [reflexivity|]. apply not_finalizes_saved, Hfin.
Qed.

(** C5: every wave file saved during a run begins with the contents that
    [pre_speech_buffer] had when the onset frame of its segment arrived,
    followed by the onset frame; that buffer holds, in arrival order, the
    last [pre_speech_maxlen] = int(pre_speech_padding * 1000 /
    frame_duration) non-speech frames pushed on it (those received while
    not recording); and the onset callback resets [speech_frame_count] to
    zero before it counts the onset frame. *)
Theorem saved_segment_starts_with_pre_roll (frs : list frame)
    (seg : list (list byte)) :
  In seg (listen frs) ->
  exists frs0 onset more rest,
    frs = frs0 ++ onset :: more /\
    recording (run initial frs0) = false /\
    f_is_speech onset = true /\
    seg = pre_speech_buffer (run initial frs0) ++ f_pcm onset :: rest /\
    pre_speech_buffer (run initial frs0) =
      last_n pre_speech_maxlen (idle_frames initial frs0) /\
    (length (pre_speech_buffer (run initial frs0)) <= pre_speech_maxlen)%nat
    /\
    pre_speech_maxlen =
      Z.to_nat (int_of_float
                  (pre_speech_padding * 1000 / inject_Z frame_duration)%Q) /\
    speech_frame_count (start_recording (run initial frs0)) = 0 /\
    callback (run initial frs0) onset =
      speech_frame (start_recording (run initial frs0)) (f_pcm onset).
Proof.
  unfold listen, on_keyboard_interrupt.
  induction frs as [|fr frs IH] using rev_ind; [intros []|].
  intros Hin.
  assert (Hold : In seg (saved (run initial frs)) ->
    exists frs0 onset more rest,
      frs ++ [fr] = frs0 ++ onset :: more /\
      recording (run initial frs0) = false /\
      f_is_speech onset = true /\
      seg = pre_speech_buffer (run initial frs0) ++ f_pcm onset :: rest /\
      pre_speech_buffer (run initial frs0) =
        last_n pre_speech_maxlen (idle_frames initial frs0) /\
      (length (pre_speech_buffer (run initial frs0)) <= pre_speech_maxlen)%nat
      /\
      pre_speech_maxlen =
        Z.to_nat (int_of_float
                    (pre_speech_padding * 1000 / inject_Z frame_duration)%Q)
      /\
      speech_frame_count (start_recording (run initial frs0)) = 0 /\
      callback (run initial frs0) onset =
        speech_frame (start_recording (run initial frs0)) (f_pcm onset)).
  { intros H. destruct (IH H) as (frs0 & onset & more & rest & -> & Hrest).
    exists frs0, onset, (more ++ [fr]), rest.
    split; [by rewrite <- app_assoc|exact Hrest]. }
  destruct (saved_run_snoc frs fr) as [[_ Heq]|[Hfin [Heq|Heq]]];
    rewrite Heq in Hin; try (apply Hold, Hin).
  apply in_app_or in Hin. destruct Hin as [Hin|[<-|[]]]; [apply Hold, Hin|].
  destruct (finalize_shape frs fr Hfin)
    as (frs0 & onset & rest & (-> & Hidle & Hon & _) & Hfr & _).
  exists frs0, onset, (rest ++ [fr]),
    (map f_pcm (rest ++ [fr]) ++ replicate post_speech_frames (f_pcm fr)).
  split; [by rewrite <- app_assoc|].
  split; [exact Hidle|]. split; [exact Hon|].
  split; [rewrite Hfr; reflexivity|].
  split; [apply pre_speech_buffer_initial|].
  split; [rewrite pre_speech_buffer_initial; apply last_n_length|].
  split; [reflexivity|]. split; [reflexivity|].
  unfold callback. rewrite Hon, Hidle. reflexivity.
Qed.

Lemma saved_segment_starts_with_pre_roll_witness :
  let frs :=
    [silence_at 0; silence_at 30] ++ speech_from 60 167
      ++ [silence_at 5070; silence_at 36000] in
  exists seg,
    In seg (listen frs) /\
    exists frs0 onset more rest,
      frs = frs0 ++ onset :: more /\
      recording (run initial frs0) = false /\
      f_is_speech onset = true /\
      seg = pre_speech_buffer (run initial frs0) ++ f_pcm onset :: rest.
Proof.
  intros frs.
  assert (Hlen : (0 < length (listen frs))%nat)
    by (vm_compute; constructor).
  pose proof (nth_In (listen frs) [] Hlen) as Hin.
  exists (nth 0 (listen frs) []). split; [exact Hin|].
  destruct (saved_segment_starts_with_pre_roll frs _ Hin)
    as (frs0 & onset & more & rest & H1 & H2 & H3 & H4 & _).
  exists frs0, onset, more, rest.
  split; [exact H1|]. split; [exact H2|]. split; [exact H3|exact H4].
Defined.

Example pre_roll_of_first_segment :
  take 3 (nth 0 (listen ([silence_at 0; silence_at 30] ++ speech_from 60 167
                           ++ [silence_at 5070; silence_at 36000])) [])
  = [block "000"%byte; block "000"%byte; block "001"%byte].
Proof. vm_compute. reflexivity. Qed.

(** *** Post-speech padding (C6) *)

(** C6: when the callback finalizes a segment, the frames handed to the
    gate of [save_audio] are the active buffer, the frame just captured,
    and exactly int(post_speech_padding * 1000 / frame_duration) further
    frames, each one a copy of that last captured frame. *)
Theorem finalize_replays_last_frame (st : recorder) (fr : frame) :
  finalizes st fr = true ->
  saved (callback st fr) =
    save_audio
      ((audio_buffer st ++ [f_pcm fr])
         ++ replicate post_speech_frames (f_pcm fr))
      (speech_frame_count st) (saved st) /\
  last (audio_buffer st ++ [f_pcm fr]) = Some (f_pcm fr) /\
  post_speech_frames =
    Z.to_nat (int_of_float
                (post_speech_padding * 1000 / inject_Z frame_duration)%Q) /\
  length (finalize_frames st (f_pcm fr)) =
    (length (audio_buffer st ++ [f_pcm fr]) + post_speech_frames)%nat.
Proof.
  intros Hfin. rewrite (finalizes_callback _ _ Hfin).
  cbn [saved finalize]. unfold finalize_frames.
  rewrite replay_replicate. split; [reflexivity|].
  split; [apply last_snoc|]. split; [reflexivity|].
  rewrite length_app, length_replicate. reflexivity.
Qed.

Lemma finalize_replays_last_frame_witness :
  let st := run initial (speech_burst 167 ++ [silence_at 5010]) in
  let fr := silence_at 36000 in
  finalizes st fr = true /\
  saved (callback st fr) =
    save_audio
      ((audio_buffer st ++ [f_pcm fr])
         ++ replicate post_speech_frames (f_pcm fr))
      (speech_frame_count st) (saved st).
Proof.
  intros st fr.
  assert (Hfin : finalizes st fr = true) by (vm_compute; reflexivity).
  split; [exact Hfin|].
  exact (proj1 (finalize_replays_last_frame st fr Hfin)).
Defined.

(** *** External stop (C7) *)

(** C7, as stated, fails: stopped after 200 speech frames (six seconds of
    speech, recording in progress), the process exits with no file, though
    the gate of [save_audio] applied to the active buffer would have kept
    it. *)
Lemma stop_while_recording_drops_utterance :
  let st := run initial (speech_burst 200) in
  recording st = true /\
  Qltb (speech_duration (speech_frame_count st)) min_speech_duration = false
  /\
  listen (speech_burst 200) = [] /\
  length (save_audio (audio_buffer st) (speech_frame_count st) (saved st))
    = 1%nat.
Proof. vm_compute. repeat split. Qed.

(** C7, amended: the stop handler runs no gating check; the files present
    at exit are those the callbacks saved, and each of them comes from a
    silence timeout that passed the gate, so a recording in progress at the
    stop is dropped whatever its speech duration. *)
Theorem stop_keeps_only_timeout_segments (frs : list frame)
    (seg : list (list byte)) :
  In seg (listen frs) ->
  listen frs = saved (run initial frs) /\
  exists frs1 fr frs2,
    frs = frs1 ++ fr :: frs2 /\
    finalizes (run initial frs1) fr = true /\
    (min_speech_duration
       <= speech_duration (speech_frame_count (run initial frs1)))%Q /\
    seg = finalize_frames (run initial frs1) (f_pcm fr).
Proof.
  intros Hin. split; [reflexivity|]. revert Hin.
  unfold listen, on_keyboard_interrupt.
  induction frs as [|fr frs IH] using rev_ind; [intros []|].
  intros Hin.
  assert (Hold : In seg (saved (run initial frs)) ->
    exists frs1 fr1 frs2,
      frs ++ [fr] = frs1 ++ fr1 :: frs2 /\
      finalizes (run initial frs1) fr1 = true /\
      (min_speech_duration
         <= speech_duration (speech_frame_count (run initial frs1)))%Q /\
      seg = finalize_frames (run initial frs1) (f_pcm fr1)).
  { intros H. destruct (IH H) as (frs1 & fr1 & frs2 & -> & Hrest).
    exists frs1, fr1, (frs2 ++ [fr]).
    split; [by rewrite <- app_assoc|exact Hrest]. }
  rewrite run_snoc in Hin.
  destruct (finalizes (run initial frs) fr) eqn:Hfin.
  - rewrite (finalizes_callback _ _ Hfin) in Hin.
    cbn [saved finalize] in Hin. unfold save_audio in Hin.
    destruct (Qltb _ _) eqn:Hgate; [apply Hold, Hin|].
    apply in_app_or in Hin. destruct Hin as [Hin|[<-|[]]]; [apply Hold, Hin|].
    exists frs, fr, []. repeat split; [exact Hfin|].
    apply Qltb_ge, Hgate.
  - rewrite (not_finalizes_saved _ _ Hfin) in Hin. apply Hold, Hin.
Qed.

Lemma stop_keeps_only_timeout_segments_witness :
  let frs := speech_burst 167 ++ [silence_at 5010; silence_at 36000]
               ++ speech_from 36030 200 in
  exists seg,
    In seg (listen frs) /\ length (listen frs) = 1%nat /\
    exists frs1 fr frs2,
      frs = frs1 ++ fr :: frs2 /\
      finalizes (run initial frs1) fr = true /\
      seg = finalize_frames (run initial frs1) (f_pcm fr).
Proof.
  intros frs.
  assert (Hlen : length (listen frs) = 1%nat) by (vm_compute; reflexivity).
  assert (Hpos : (0 < length (listen frs))%nat) by (rewrite Hlen; constructor).
  pose proof (nth_In (listen frs) [] Hpos) as Hin.
  exists (nth 0 (listen frs) []). split; [exact Hin|]. split; [exact Hlen|].
  destruct (stop_keeps_only_timeout_segments frs _ Hin)
    as (_ & frs1 & fr & frs2 & H1 & H2 & _ & H4).
  exists frs1, fr, frs2.
  split; [exact H1|]. split; [exact H2|exact H4].
Defined.

(** *** Determinism (C8) *)

(** C8, as stated, fails: the same blocks with the same verdicts give one
    saved segment when the second silent callback reads the clock 31 s after
    the first, and none, the recording still going on, when it reads it
    30 ms after. *)
Lemma same_frames_different_segments :
  let frs1 := speech_burst 167 ++ [silence_at 5010; silence_at 36000] in
  let frs2 := speech_burst 167 ++ [silence_at 5010; silence_at 5040] in
  map classified frs1 = map classified frs2 /\
  length (listen frs1) = 1%nat /\
  listen frs2 = [] /\
  recording (run initial frs1) = false /\
  recording (run initial frs2) = true.
Proof. vm_compute. repeat split. Qed.

Lemma Qltb_offset (c thr n1 t1 n2 t2 : Q) :
  (t2 == t1 + c)%Q -> (n2 == n1 + c)%Q ->
  Qltb thr (n2 - t2) = Qltb thr (n1 - t1).
Proof.
  intros Ht Hn. unfold Qltb. f_equal.
  apply Qleb_comp; [|reflexivity]. rewrite Ht, Hn. ring.
Qed.

Lemma offset_states_callback c st1 st2 fr1 fr2 :
  offset_states c st1 st2 -> same_frame_offset c fr1 fr2 ->
  offset_states c (callback st1 fr1) (callback st2 fr2).
Proof.
  destruct st1 as [r1 b1 p1 s1 n1 v1], st2 as [r2 b2 p2 s2 n2 v2].
  destruct fr1 as [pcm1 sp1 now1], fr2 as [pcm2 sp2 now2].
  unfold offset_states, same_frame_offset, classified.
  cbn [recording audio_buffer pre_speech_buffer silence_start_time
       speech_frame_count saved f_pcm f_is_speech f_now].
  intros (<- & <- & <- & <- & <- & Hsil) [Hcl Hnow].
  injection Hcl as <- <-.
  unfold callback, silence_frame.
  cbn [recording silence_start_time f_pcm f_is_speech f_now].
  destruct sp1.
  - destruct r1; simpl; auto 10.
  - destruct r1.
    + destruct s1 as [t1|], s2 as [t2|]; try contradiction.
      * rewrite (Qltb_offset c _ _ _ _ _ Hsil Hnow).
        destruct (Qltb _ _); unfold finalize_frames; simpl; auto 10.
      * simpl. auto 10.
    + unfold idle_frame.
      cbn [recording audio_buffer pre_speech_buffer speech_frame_count
           saved silence_start_time].
      auto 10.
Qed.

Lemma offset_states_run c frs1 frs2 :
  Forall2 (same_frame_offset c) frs1 frs2 ->
  forall st1 st2, offset_states c st1 st2 ->
  offset_states c (run st1 frs1) (run st2 frs2).
Proof.
  induction 1 as [|fr1 fr2 frs1 frs2 Hfr _ IH]; intros st1 st2 Hst.
  - exact Hst.
  - apply IH, offset_states_callback; assumption.
Qed.

Lemma offset_states_finalizes c st1 st2 fr1 fr2 :
  offset_states c st1 st2 -> same_frame_offset c fr1 fr2 ->
  finalizes st1 fr1 = finalizes st2 fr2.
Proof.
  intros (Hrec & _ & _ & _ & _ & Hsil) [Hcl Hnow].
  unfold classified in Hcl. injection Hcl as _ Hsp.
  unfold finalizes. rewrite <- Hsp, <- Hrec.
  destruct (silence_start_time st1) as [t1|],
    (silence_start_time st2) as [t2|]; try contradiction; [|reflexivity].
  rewrite (Qltb_offset c _ _ _ _ _ Hsil Hnow). reflexivity.
Qed.

(** C8, amended: segmentation is deterministic in the classified frame
    sequence together with the clock readings of the callbacks, up to a
    common offset of the clock: two runs fed the same blocks with the same
    verdicts, the clock of the second being a constant ahead of the clock of
    the first, save the same files, hold the same buffers and counter, and
    take the same finalization decision on every further frame. *)
Theorem same_frames_same_clock_same_segments (c : Q)
    (frs1 frs2 : list frame) :
  Forall2 (same_frame_offset c) frs1 frs2 ->
  listen frs1 = listen frs2 /\
  recording (run initial frs1) = recording (run initial frs2) /\
  audio_buffer (run initial frs1) = audio_buffer (run initial frs2) /\
  pre_speech_buffer (run initial frs1) = pre_speech_buffer (run initial frs2)
  /\
  speech_frame_count (run initial frs1) = speech_frame_count (run initial frs2)
  /\
  forall fr1 fr2, same_frame_offset c fr1 fr2 ->
    finalizes (run initial frs1) fr1 = finalizes (run initial frs2) fr2.
Proof.
  intros Hfrs.
  assert (Hrun : offset_states c (run initial frs1) (run initial frs2)).
  { apply offset_states_run; [exact Hfrs|]. unfold offset_states. simpl.
    auto 10. }
  pose proof Hrun as (Hrec & Hbuf & Hpre & Hcnt & Hsaved & _).
  unfold listen, on_keyboard_interrupt. repeat split; try assumption.
  intros fr1 fr2 Hfr. exact (offset_states_finalizes _ _ _ _ _ Hrun Hfr).
Qed.

Lemma same_frames_same_clock_same_segments_witness :
  let frs1 := [silence_at 0; Frame (block "001"%byte) true (3 # 100);
               silence_at 60; silence_at 31000] in
  let frs2 := [silence_at 1000; Frame (block "001"%byte) true (103 # 100);
               silence_at 1060; silence_at 32000] in
  Forall2 (same_frame_offset 1) frs1 frs2 /\ listen frs1 = listen frs2.
Proof.
  intros frs1 frs2.
  assert (H : Forall2 (same_frame_offset 1) frs1 frs2).
  { repeat constructor. }
  split; [exact H|].
  exact (proj1 (same_frames_same_clock_same_segments 1 frs1 frs2 H)).
Defined.

End VoxRecorderProofs.

(** ** crc32_update *)

Module Crc32Proofs.

Import Crc32.

(** ** Facts *)

Example crc32_check_value :
  crc32 (map byte_of_ascii (list_ascii_of_string "123456789")) = 0xCBF43926.
Proof. vm_compute. reflexivity. Qed.

Lemma lxor_u32 a b : u32 a -> u32 b -> u32 (Z.lxor a b).
Proof.
  unfold u32. intros [Ha Ha'] [Hb Hb']. split.
  - apply Z.lxor_nonneg. tauto.
  - destruct (Z.eq_dec (Z.lxor a b) 0) as [->|Hne]; [lia|].
    assert (Hpos : 0 < Z.lxor a b).
    { assert (0 <= Z.lxor a b) by (apply Z.lxor_nonneg; tauto). lia. }
    apply Z.log2_lt_pow2; [exact Hpos|].
    pose proof (Z.log2_lxor a b Ha Hb) as Hlog.
    assert (Z.log2 a < 32).
    { destruct (Z.eq_dec a 0) as [->|]; [simpl; lia|].
      apply Z.log2_lt_pow2; lia. }
    assert (Z.log2 b < 32).
    { destruct (Z.eq_dec b 0) as [->|]; [simpl; lia|].
      apply Z.log2_lt_pow2; lia. }
    lia.
Qed.

Lemma land_mask32 x : u32 x -> Z.land x mask32 = x.
Proof.
  intros [H0 H1]. change mask32 with (Z.ones 32).
  rewrite Z.land_ones by lia. apply Z.mod_small. lia.
Qed.

Lemma land_mask32_u32 x : u32 (Z.land x mask32).
Proof.
  change mask32 with (Z.ones 32). rewrite Z.land_ones by lia.
  unfold u32. apply Z.mod_pos_bound. lia.
Qed.

Lemma byte_val_range b : 0 <= byte_val b < 256.
Proof.
  unfold byte_val. pose proof (Byte.to_N_bounded b). lia.
Qed.

Lemma crc_bit_u32 c : u32 c -> u32 (crc_bit c).
Proof.
  intros Hc. assert (Hs : u32 (Z.shiftr c 1)).
  { unfold u32 in *. rewrite Z.shiftr_div_pow2 by lia.
    change (2 ^ 1) with 2. split.
    - apply Z.div_pos; lia.
    - apply Z.div_lt_upper_bound; lia. }
  unfold crc_bit. destruct (Z.testbit c 0); [|exact Hs].
  apply lxor_u32; [exact Hs|]. unfold u32, poly. lia.
Qed.

Lemma crc_byte_u32 c b : u32 c -> u32 (crc_byte c b).
Proof.
  intros Hc. unfold crc_byte.
  assert (Hx : u32 (Z.lxor c (byte_val b))).
  { apply lxor_u32; [exact Hc|]. pose proof (byte_val_range b).
    unfold u32. lia. }
  revert Hx. generalize (Z.lxor c (byte_val b)). intros x Hx.
  do 8 (try apply crc_bit_u32). exact Hx.
Qed.

Lemma fold_crc_byte_u32 data c : u32 c -> u32 (fold_left crc_byte data c).
Proof.
  revert c. induction data as [|b data IH]; intros c Hc; simpl.
  - exact Hc.
  - apply IH, crc_byte_u32, Hc.
Qed.

Lemma mask32_u32 : u32 mask32.
Proof. unfold u32, mask32. lia. Qed.

Lemma binascii_crc32_u32 data value : u32 (binascii_crc32 data value).
Proof.
  unfold binascii_crc32.
  apply lxor_u32; [|exact mask32_u32].
  apply fold_crc_byte_u32, lxor_u32; [apply land_mask32_u32|].
  exact mask32_u32.
Qed.

Lemma crc32_update_u32 crc data : u32 (crc32_update crc data).
Proof.
  unfold crc32_update. change 0xFFFFFFFF with mask32.
  rewrite land_mask32 by apply binascii_crc32_u32.
  apply binascii_crc32_u32.
Qed.

Lemma crc32_update_nil crc : u32 crc -> crc32_update crc [] = crc.
Proof.
  intros Hc. unfold crc32_update, binascii_crc32. simpl.
  change 0xFFFFFFFF with mask32.
  rewrite (land_mask32 crc Hc), Z.lxor_assoc, Z.lxor_nilpotent, Z.lxor_0_r.
  apply land_mask32, Hc.
Qed.

(** Feeding the chunks one after the other gives the checksum of their
    concatenation. *)
Lemma crc32_update_app crc a b :
  crc32_update (crc32_update crc a) b = crc32_update crc (a ++ b).
Proof.
  unfold crc32_update. change 0xFFFFFFFF with mask32.
  rewrite !land_mask32 by apply binascii_crc32_u32.
  unfold binascii_crc32. rewrite fold_left_app. f_equal. f_equal.
  set (r := fold_left crc_byte a _).
  assert (Hr : u32 r).
  { apply fold_crc_byte_u32, lxor_u32; [apply land_mask32_u32|].
    exact mask32_u32. }
  rewrite (land_mask32 (Z.lxor r mask32))
    by (apply lxor_u32; [exact Hr|exact mask32_u32]).
  rewrite Z.lxor_assoc, Z.lxor_nilpotent, Z.lxor_0_r. reflexivity.
Qed.

End Crc32Proofs.

(** ** The UART receiver *)

Module ReceiverProofs.

Import Crc32 Crc32Proofs Receiver.

Example int_examples :
  ascii_int " 1_024 " = Some 1024 /\ ascii_int "-1" = Some (-1) /\
  ascii_int "12a" = None /\ ascii_int "" = None /\
  ascii_int0 "0x1a2b3c4d" = Some 439041101 /\ ascii_int0 "010" = None /\
  ascii_int0 "00" = Some 0 /\ ascii_int0 "0x" = None /\
  ascii_int0 "42" = Some 42.
Proof. vm_compute. repeat split. Qed.

Example split_examples :
  split_comma "clip.wav,1024,0x1a" = ["clip.wav"; "1024"; "0x1a"]%string /\
  split_comma "" = [""]%string /\ split_comma "a," = ["a"; ""]%string.
Proof. vm_compute. repeat split. Qed.

Example path_examples :
  AUDIO_DIR = "/home/pi/wav_pipeline/audio"%string /\
  pc_path "clip.wav" = "/home/pi/wav_pipeline/audio/clip.wav"%string /\
  pc_path "../../etc/passwd" = "/home/pi/wav_pipeline/audio/passwd"%string /\
  micro_path "/etc/passwd" = "/home/pi/wav_pipeline/audio/passwd"%string /\
  os_path_dirname "/home/pi/wav_pipeline/audio/passwd" = AUDIO_DIR.
Proof. vm_compute. repeat split. Qed.

(** ** Facts about paths *)

Lemma string_app_assoc (a b c : string) :
  ((a ++ b) ++ c = a ++ (b ++ c))%string.
Proof.
  induction a as [|x a IH]; [reflexivity|].
  change (String x ((a ++ b) ++ c) = String x (a ++ (b ++ c)))%string.
  f_equal. exact IH.
Qed.

Lemma string_app_nil_r (a : string) : (a ++ "" = a)%string.
Proof.
  induction a as [|x a IH]; [reflexivity|].
  change (String x (a ++ "") = String x a)%string. f_equal. exact IH.
Qed.

Lemma has_sep_app a b : has_sep (a ++ b) = has_sep a || has_sep b.
Proof.
  induction a as [|x a IH]; [reflexivity|].
  change (is_sep x || has_sep (a ++ b) = is_sep x || has_sep a || has_sep b).
  rewrite IH. apply orb_assoc.
Qed.

Lemma is_sep_eq c : is_sep c = true -> c = "/"%char.
Proof. unfold is_sep. apply Ascii.eqb_eq. Qed.

Lemma after_last_sep_no_sep acc p :
  has_sep acc = false -> has_sep (after_last_sep acc p) = false.
Proof.
  revert acc. induction p as [|c p IH]; intros acc Hacc; simpl.
  - exact Hacc.
  - destruct (is_sep c) eqn:Hc; [apply IH; reflexivity|].
    apply IH. rewrite has_sep_app, Hacc. simpl. rewrite Hc. reflexivity.
Qed.

Lemma basename_no_sep p : has_sep (os_path_basename p) = false.
Proof. apply after_last_sep_no_sep. reflexivity. Qed.

Lemma string_app_nil_l (a : string) : ("" ++ a = a)%string.
Proof. reflexivity. Qed.

Lemma string_app_cons c (a b : string) :
  (String c a ++ b = String c (a ++ b))%string.
Proof. reflexivity. Qed.

Lemma after_last_sep_plain acc name :
  has_sep name = false -> after_last_sep acc name = (acc ++ name)%string.
Proof.
  revert acc. induction name as [|c name IH]; intros acc H.
  - cbn [after_last_sep]. by rewrite string_app_nil_r.
  - cbn [has_sep] in H. apply orb_false_iff in H as [Hc Hn].
    cbn [after_last_sep]. rewrite Hc, IH by exact Hn.
    rewrite string_app_assoc. reflexivity.
Qed.

Lemma after_last_sep_dir acc dir name :
  has_sep name = false ->
  after_last_sep acc (dir ++ "/" ++ name) = name.
Proof.
  intros Hn. revert acc. induction dir as [|c dir IH]; intros acc.
  - rewrite string_app_nil_l, string_app_cons, string_app_nil_l.
    cbn [after_last_sep]. change (is_sep "/") with true. cbn iota.
    apply (after_last_sep_plain "" name Hn).
  - rewrite string_app_cons. cbn [after_last_sep].
    destruct (is_sep c); apply IH.
Qed.

Lemma through_last_sep_plain acc name :
  has_sep name = false -> through_last_sep acc name = ""%string.
Proof.
  revert acc. induction name as [|c name IH]; intros acc H.
  - reflexivity.
  - cbn [has_sep] in H. apply orb_false_iff in H as [Hc Hn].
    cbn [through_last_sep]. rewrite Hc. apply IH, Hn.
Qed.

Lemma through_last_sep_dir acc dir name :
  has_sep name = false ->
  through_last_sep acc (dir ++ "/" ++ name) = (acc ++ dir ++ "/")%string.
Proof.
  intros Hn. revert acc. induction dir as [|c dir IH]; intros acc.
  - rewrite !string_app_nil_l, string_app_cons, string_app_nil_l.
    cbn [through_last_sep]. change (is_sep "/") with true. cbn iota.
    rewrite (through_last_sep_plain "" name Hn). reflexivity.
  - rewrite !string_app_cons. cbn [through_last_sep].
    destruct (is_sep c) eqn:Hc.
    + rewrite IH. apply is_sep_eq in Hc. subst c.
      rewrite string_app_nil_l. reflexivity.
    + rewrite IH, string_app_assoc. reflexivity.
Qed.

Lemma no_sep_starts name : has_sep name = false -> starts_with_sep name = false.
Proof.
  destruct name as [|c name]; simpl; [reflexivity|].
  intros H. apply orb_false_iff in H as [Hc _]. exact Hc.
Qed.

Lemma join_audio_dir name :
  has_sep name = false ->
  os_path_join AUDIO_DIR name = (AUDIO_DIR ++ "/" ++ name)%string.
Proof.
  intros H. unfold os_path_join. rewrite (no_sep_starts name H).
  reflexivity.
Qed.

Lemma pc_path_eq filename :
  pc_path filename = (AUDIO_DIR ++ "/" ++ os_path_basename filename)%string.
Proof. apply join_audio_dir, basename_no_sep. Qed.

Lemma micro_path_eq filename :
  micro_path filename =
    (AUDIO_DIR ++ "/" ++ os_path_basename filename)%string.
Proof. reflexivity. Qed.

Lemma dirname_under dir name :
  has_sep name = false ->
  os_path_dirname (dir ++ "/" ++ name) =
    if (rstrip_sep (dir ++ "/") =? "")%string then (dir ++ "/")%string
    else rstrip_sep (dir ++ "/").
Proof.
  intros H. unfold os_path_dirname.
  rewrite (through_last_sep_dir "" dir name H). reflexivity.
Qed.

Lemma dirname_audio_dir name :
  has_sep name = false ->
  os_path_dirname (AUDIO_DIR ++ "/" ++ name) = AUDIO_DIR.
Proof. intros H. rewrite (dirname_under _ _ H). reflexivity. Qed.

(** ** The payload loop *)

Lemma ser_read_spec n s :
  let '(chunk, s') := ser_read n s in
  rx s = chunk ++ rx s' /\ tx s' = tx s /\
  arrivals s' = tail (arrivals s) /\
  (length chunk <= Z.to_nat n)%nat /\
  length chunk = Nat.min (Nat.min (Z.to_nat n) (hd 0%nat (arrivals s)))
                         (length (rx s)).
Proof.
  unfold ser_read. destruct s as [r [|k ks] t]; simpl.
  - repeat split; lia.
  - rewrite take_drop, length_take. repeat split; lia.
Qed.

Lemma crc_after_u32 ecrc c data : u32 c -> u32 (crc_after ecrc c data).
Proof.
  intros Hc. destruct ecrc; simpl; [apply crc32_update_u32|exact Hc].
Qed.

Lemma crc_after_nil ecrc c : u32 c -> crc_after ecrc c [] = c.
Proof.
  intros Hc. destruct ecrc; simpl; [apply crc32_update_nil, Hc|reflexivity].
Qed.

Lemma crc_after_app ecrc c a b :
  crc_after ecrc (crc_after ecrc c a) b = crc_after ecrc c (a ++ b).
Proof. destruct ecrc; simpl; [apply crc32_update_app|reflexivity]. Qed.

Lemma recv_chunk_spec path size ecrc p content :
  files (p_world p) !! path = Some content ->
  u32 (crc p) ->
  let p' := recv_chunk path size ecrc p in
  exists chunk,
    rx (ser (p_world p)) = chunk ++ rx (ser (p_world p')) /\
    tx (ser (p_world p')) = tx (ser (p_world p)) /\
    arrivals (ser (p_world p')) = tail (arrivals (ser (p_world p))) /\
    Z.of_nat (length chunk) <= Z.max 0 (Z.min (size - received p) 1024) /\
    length chunk =
      Nat.min (Nat.min (Z.to_nat (Z.min (size - received p) 1024))
                       (hd 0%nat (arrivals (ser (p_world p)))))
              (length (rx (ser (p_world p)))) /\
    received p' = received p + Z.of_nat (length chunk) /\
    files (p_world p') = <[path := content ++ chunk]> (files (p_world p)) /\
    crc p' = crc_after ecrc (crc p) chunk.
Proof.
  intros Hfile Hcrc. cbn zeta. unfold recv_chunk.
  pose proof (ser_read_spec (Z.min (size - received p) 1024)
                (ser (p_world p))) as Hread.
  destruct (ser_read _ _) as [chunk s'].
  destruct Hread as (Hrx & Htx & Harr & Hlen & Hlen').
  exists chunk. destruct chunk as [|b chunk].
  - cbn [p_world ser files received crc length].
    rewrite app_nil_r, insert_id by exact Hfile.
    rewrite crc_after_nil by exact Hcrc.
    repeat split; try assumption; try lia.
  - cbn [p_world file_write ser files received crc].
    rewrite Hfile. cbn [default].
    repeat split; try assumption; try lia.
Qed.

Lemma recv_loop_spec path size ecrc fuel p content :
  files (p_world p) !! path = Some content ->
  u32 (crc p) ->
  exists data,
    let p' := fst (recv_loop fuel path size ecrc p) in
    let finished := snd (recv_loop fuel path size ecrc p) in
    rx (ser (p_world p)) = data ++ rx (ser (p_world p')) /\
    tx (ser (p_world p')) = tx (ser (p_world p)) /\
    received p' = received p + Z.of_nat (length data) /\
    files (p_world p') = <[path := content ++ data]> (files (p_world p)) /\
    crc p' = crc_after ecrc (crc p) data /\
    (finished = true -> size <= received p') /\
    (received p <= size -> received p' <= size) /\
    (size <= received p -> data = []).
Proof.
  revert p content. induction fuel as [|fuel IH]; intros p content Hfile Hcrc.
  - exists []. cbn [recv_loop].
    destruct (Z.ltb_spec (received p) size) as [Hlt|Hge];
      cbn [fst snd length]; rewrite app_nil_r, insert_id by exact Hfile;
      rewrite crc_after_nil by exact Hcrc;
      repeat split; try reflexivity; try lia; try discriminate.
  - cbn [recv_loop].
    destruct (Z.ltb_spec (received p) size) as [Hlt|Hge].
    + destruct (recv_chunk_spec path size ecrc p content Hfile Hcrc)
        as (chunk & Hrx & Htx & _ & Hlen & _ & Hrec & Hfiles & Hc).
      set (p1 := recv_chunk path size ecrc p) in *.
      assert (Hfile1 : files (p_world p1) !! path = Some (content ++ chunk))
        by (rewrite Hfiles; apply lookup_insert_eq).
      assert (Hcrc1 : u32 (crc p1)) by (rewrite Hc; by apply crc_after_u32).
      destruct (IH p1 _ Hfile1 Hcrc1)
        as (data & Hrx' & Htx' & Hrec' & Hfiles' & Hc' & Hfin & Hle & _).
      exists (chunk ++ data). cbn zeta in *.
      fold p1. rewrite length_app.
      split; [rewrite <- app_assoc, <- Hrx'; exact Hrx|].
      split; [congruence|]. split; [lia|].
      split; [rewrite Hfiles', Hfiles, insert_insert_eq, app_assoc;
              reflexivity|].
      split; [rewrite Hc', Hc; apply crc_after_app|].
      split; [exact Hfin|]. split; [intros _; apply Hle; lia|lia].
    + exists []. cbn [fst snd length].
      rewrite app_nil_r, insert_id by exact Hfile.
      rewrite crc_after_nil by exact Hcrc.
      repeat split; try reflexivity; lia.
Qed.

Lemma recv_loop_finishes path size ecrc fuel p content :
  files (p_world p) !! path = Some content ->
  u32 (crc p) ->
  (length (arrivals (ser (p_world p))) <= fuel)%nat ->
  delivers (Z.to_nat (size - received p)) (ser (p_world p)) ->
  snd (recv_loop fuel path size ecrc p) = true.
Proof.
  revert p content.
  induction fuel as [|fuel IH]; intros p content Hfile Hcrc Hfuel Hdel;
    cbn [recv_loop];
    destruct (Z.ltb_spec (received p) size) as [Hlt|Hge];
    try reflexivity.
  - destruct Hdel as (_ & Hsum).
    destruct (arrivals (ser (p_world p))); simpl in *; lia.
  - destruct (recv_chunk_spec path size ecrc p content Hfile Hcrc)
      as (chunk & Hrx & Htx & Harr & Hlen & Hlen' & Hrec & Hfiles & Hc).
    set (p1 := recv_chunk path size ecrc p) in *.
    destruct Hdel as (Hdrx & Hsum).
    assert (Hlrx : length (rx (ser (p_world p)))
                   = (length chunk + length (rx (ser (p_world p1))))%nat)
      by (rewrite Hrx at 1; apply length_app).
    destruct (arrivals (ser (p_world p))) as [|k ks] eqn:Earr;
      [simpl in Hsum; lia|].
    cbn [hd] in Hlen'. cbn [sum_list_with] in Hsum. cbn [tail] in Harr.
    eapply (IH p1 (content ++ chunk)).
    + rewrite Hfiles. apply lookup_insert_eq.
    + rewrite Hc. by apply crc_after_u32.
    + rewrite Harr. simpl in Hfuel. lia.
    + unfold delivers. rewrite Harr. split; lia.
Qed.

(** ** One transfer *)

Lemma ACK_neq_NACK : ACK <> NACK.
Proof. discriminate. Qed.

Lemma transfer_ok_accepted h p data :
  received p = Z.of_nat (length data) ->
  crc p = crc_after (h_crc h) 0 data ->
  transfer_ok (h_size h) (h_crc h) p = accepted h data.
Proof.
  intros Hrec Hcrc. unfold transfer_ok, accepted. rewrite Hrec, Hcrc.
  destruct (h_crc h); reflexivity.
Qed.

Lemma u32_0 : u32 0.
Proof. unfold u32. lia. Qed.

Lemma receive_file_spec path h w :
  exists data,
    let w' := fst (receive_file path h w) in
    let finished := snd (receive_file path h w) in
    rx (ser w) = data ++ rx (ser w') /\
    files w' = <[path := data]> (files w) /\
    Z.of_nat (length data) <= Z.max 0 (h_size h) /\
    (finished = true ->
       h_size h <= Z.of_nat (length data) /\
       tx (ser w') = tx (ser w) ++ (if accepted h data then ACK else NACK)) /\
    (finished = false -> tx (ser w') = tx (ser w)).
Proof.
  unfold receive_file, recv_payload.
  set (p0 := Progress (open_wb path w) 0 0).
  assert (Hfile : files (p_world p0) !! path = Some [])
    by apply lookup_insert_eq.
  destruct (recv_loop_spec path (h_size h) (h_crc h)
              (length (arrivals (ser (open_wb path w)))) p0 [] Hfile u32_0)
    as (data & Hrx & Htx & Hrec & Hfiles & Hcrc & Hfin & Hle & Hneg).
  cbn zeta in *. destruct (recv_loop _ _ _ _ p0) as [p' finished].
  cbn [fst snd] in *. cbn [p0 p_world received crc open_wb ser files] in *.
  rewrite insert_insert_eq in Hfiles. cbn [app] in Hfiles.
  assert (Hmax : Z.of_nat (length data) <= Z.max 0 (h_size h)).
  { destruct (Z.le_gt_cases 0 (h_size h)) as [Hpos|Hlt]; [lia|].
    rewrite Hneg by lia. simpl. lia. }
  exists data. destruct finished; cbn [fst snd].
  - cbn [ser_write emit ser files rx tx].
    split; [exact Hrx|]. split; [exact Hfiles|]. split; [exact Hmax|].
    split; [|discriminate]. intros _.
    split; [specialize (Hfin eq_refl); lia|].
    rewrite Htx.
    rewrite (transfer_ok_accepted h p' data) by (assumption || lia).
    reflexivity.
  - split; [exact Hrx|]. split; [exact Hfiles|]. split; [exact Hmax|].
    split; [discriminate|]. intros _. exact Htx.
Qed.

Lemma receive_file_finishes path h w :
  delivers (Z.to_nat (h_size h)) (ser w) ->
  snd (receive_file path h w) = true.
Proof.
  intros Hdel. unfold receive_file, recv_payload.
  set (p0 := Progress (open_wb path w) 0 0).
  assert (Hfin : snd (recv_loop (length (arrivals (ser (open_wb path w))))
                        path (h_size h) (h_crc h) p0) = true).
  { apply (recv_loop_finishes _ _ _ _ p0 []).
    - apply lookup_insert_eq.
    - exact u32_0.
    - reflexivity.
    - cbn [p0 received p_world open_wb ser]. rewrite Z.sub_0_r. exact Hdel. }
  destruct (recv_loop _ _ _ _ p0) as [p' finished].
  cbn [snd] in Hfin. subst finished. reflexivity.
Qed.

(** C1: when the payload loop of a transfer ends, the receiver writes ACK
    on the line if and only if the bytes received are as many as declared
    and either no checksum is declared or the CRC-32 of the bytes received,
    computed chunk by chunk, equals the declared one; otherwise it writes
    NACK; in both cases the destination file holds the bytes received.  In
    particular, when a payload [P] is on the line and is delivered, the
    transfer that declares [length P] and [crc32 P] ends with ACK, and the
    one that declares [crc32 P + 1] with NACK. *)
Theorem ack_iff_size_and_checksum (path : string) (h : header) (w : world) :
  let w' := fst (receive_file path h w) in
  (snd (receive_file path h w) = true ->
   exists data,
     rx (ser w) = data ++ rx (ser w') /\
     files w' !! path = Some data /\
     tx (ser w') = tx (ser w) ++ (if accepted h data then ACK else NACK)) /\
  (forall P rest,
     rx (ser w) = P ++ rest ->
     h_size h = Z.of_nat (length P) ->
     delivers (length P) (ser w) ->
     snd (receive_file path h w) = true /\
     files w' !! path = Some P /\
     rx (ser w') = rest /\
     (h_crc h = Some (crc32 P) -> tx (ser w') = tx (ser w) ++ ACK) /\
     (h_crc h = Some (crc32 P + 1) -> tx (ser w') = tx (ser w) ++ NACK) /\
     (h_crc h = None -> tx (ser w') = tx (ser w) ++ ACK)).
Proof.
  cbn zeta.
  destruct (receive_file_spec path h w)
    as (data & Hrx & Hfiles & Hlen & Hfin & _).
  cbn zeta in *. split.
  - intros Hdone. exists data. split; [exact Hrx|].
    split; [rewrite Hfiles; apply lookup_insert_eq|].
    apply Hfin, Hdone.
  - intros P rest HP Hsize Hdel.
    assert (Hdone : snd (receive_file path h w) = true).
    { apply receive_file_finishes. rewrite Hsize, Nat2Z.id. exact Hdel. }
    destruct (Hfin Hdone) as [Hge Htx].
    assert (Hdata : length data = length P) by lia.
    assert (data = P /\ rx (ser (fst (receive_file path h w))) = rest)
      as [-> Hrest].
    { rewrite HP in Hrx. apply app_inj_1 in Hrx; [|congruence].
      destruct Hrx. split; congruence. }
    split; [exact Hdone|]. split; [rewrite Hfiles; apply lookup_insert_eq|].
    split; [exact Hrest|].
    unfold accepted in Htx. rewrite Hsize, Z.eqb_refl in Htx.
    cbn [andb] in Htx.
    repeat split; intros Hc; rewrite Hc in Htx.
    + rewrite Z.eqb_refl in Htx. exact Htx.
    + replace (crc32 P =? crc32 P + 1) with false in Htx
        by (symmetry; apply Z.eqb_neq; lia).
      exact Htx.
    + exact Htx.
Qed.

Lemma ack_iff_size_and_checksum_witness :
  let P := bytes_of "123456789" in
  let w := line_with (P ++ bytes_of "next") [4; 0; 3; 7]%nat in
  let h := Header "a.wav" 9 (Some (crc32 P)) in
  snd (receive_file (pc_path "a.wav") h w) = true /\
  files (fst (receive_file (pc_path "a.wav") h w)) !! pc_path "a.wav"
    = Some P /\
  tx (ser (fst (receive_file (pc_path "a.wav") h w))) = ACK.
Proof.
  intros P w h.
  assert (Hdel : delivers (length P) (ser w)).
  { unfold delivers. simpl. lia. }
  destruct (proj2 (ack_iff_size_and_checksum (pc_path "a.wav") h w)
              P (bytes_of "next") eq_refl eq_refl Hdel)
    as (Hdone & Hfile & _ & Hack & _).
  split; [exact Hdone|]. split; [exact Hfile|].
  exact (Hack eq_refl).
Defined.

(** ** The byte counter (C10) *)

(** C10, as stated, fails: for the header [a.wav,-1] the payload loop ends
    at once with the counter at 0, which is not the declared size, and NACK
    is written although no checksum was declared. *)
Lemma negative_size_ends_short :
  let w := line_with (bytes_of "a.wav,-1" ++ [newline]) [100%nat] in
  let path := pc_path "a.wav" in
  pc_parse_header ascii_int ascii_int0 (ascii_strip "a.wav,-1")
    = Some (Header "a.wav" (-1) None) /\
  snd (recv_payload path (-1) None (open_wb path w)) = true /\
  received (fst (recv_payload path (-1) None (open_wb path w))) = 0 /\
  snd (ascii_receive_one w) = true /\
  tx (ser (fst (ascii_receive_one w))) = NACK.
Proof. vm_compute. repeat split. Qed.

Lemma recv_chunk_received path size ecrc p :
  received p <= received (recv_chunk path size ecrc p) /\
  received (recv_chunk path size ecrc p) - received p
    <= Z.max 0 (Z.min (size - received p) 1024).
Proof.
  unfold recv_chunk.
  pose proof (ser_read_spec (Z.min (size - received p) 1024)
                (ser (p_world p))) as Hread.
  destruct (ser_read _ _) as [chunk s'].
  destruct Hread as (_ & _ & _ & Hlen & _).
  destruct chunk as [|b chunk]; cbn [received]; [lia|].
  simpl length in *. lia.
Qed.

Lemma recv_chunk_empty_read path size ecrc p :
  hd 0%nat (arrivals (ser (p_world p))) = 0%nat ->
  let p' := recv_chunk path size ecrc p in
  received p' = received p /\ crc p' = crc p /\
  files (p_world p') = files (p_world p) /\
  rx (ser (p_world p')) = rx (ser (p_world p)) /\
  arrivals (ser (p_world p')) = tail (arrivals (ser (p_world p))).
Proof.
  intros Hhd. cbn zeta. unfold recv_chunk, ser_read.
  destruct (arrivals (ser (p_world p))) as [|k ks] eqn:E.
  - cbn. rewrite E. auto.
  - cbn [hd] in Hhd. subst k. rewrite Nat.min_0_r. cbn. auto.
Qed.

(** C10, amended: for every transfer whose declared size is not negative,
    each read asks for at most (declared size - bytes received) bytes, a
    read that returns nothing leaves the counter as it was, the counter
    never exceeds the declared size, and when the payload loop ends the
    counter equals the declared size; so for such a transfer NACK is
    written only when a checksum was declared and the computed one differs
    from it. *)
Theorem received_equals_declared_size (path : string) (h : header)
    (w : world) :
  0 <= h_size h ->
  (forall p,
     received p < h_size h ->
     received p <= received (recv_chunk path (h_size h) (h_crc h) p)
       <= h_size h) /\
  (forall p,
     hd 0%nat (arrivals (ser (p_world p))) = 0%nat ->
     received (recv_chunk path (h_size h) (h_crc h) p) = received p) /\
  (forall fuel,
     received (fst (recv_loop fuel path (h_size h) (h_crc h)
                      (Progress (open_wb path w) 0 0))) <= h_size h) /\
  (snd (recv_payload path (h_size h) (h_crc h) (open_wb path w)) = true ->
   received (fst (recv_payload path (h_size h) (h_crc h) (open_wb path w)))
     = h_size h) /\
  (snd (receive_file path h w) = true ->
   tx (ser (fst (receive_file path h w))) = tx (ser w) ++ NACK ->
   exists c data,
     h_crc h = Some c /\
     files (fst (receive_file path h w)) !! path = Some data /\
     Z.of_nat (length data) = h_size h /\
     crc32 data <> c).
Proof.
  intros Hsize.
  set (p0 := Progress (open_wb path w) 0 0).
  assert (Hfile : files (p_world p0) !! path = Some [])
    by apply lookup_insert_eq.
  split; [|split; [|split; [|split]]].
  - intros p Hlt.
    pose proof (recv_chunk_received path (h_size h) (h_crc h) p). lia.
  - intros p Hhd.
    apply (recv_chunk_empty_read path (h_size h) (h_crc h) p Hhd).
  - intros fuel.
    destruct (recv_loop_spec path (h_size h) (h_crc h) fuel p0 [] Hfile u32_0)
      as (data & _ & _ & _ & _ & _ & _ & Hle & _).
    apply Hle. exact Hsize.
  - unfold recv_payload. fold p0.
    destruct (recv_loop_spec path (h_size h) (h_crc h)
                (length (arrivals (ser (open_wb path w)))) p0 [] Hfile u32_0)
      as (data & _ & _ & _ & _ & _ & Hfin & Hle & _).
    intros Hdone. specialize (Hfin Hdone). specialize (Hle Hsize). lia.
  - intros Hdone Hnack.
    destruct (receive_file_spec path h w)
      as (data & _ & Hfiles & Hlen & Hfin & _).
    cbn zeta in *. destruct (Hfin Hdone) as [Hge Htx].
    rewrite Htx in Hnack. apply app_inv_head in Hnack.
    unfold accepted in Hnack.
    replace (Z.of_nat (length data) =? h_size h) with true in Hnack
      by (symmetry; apply Z.eqb_eq; lia).
    cbn [andb] in Hnack.
    destruct (h_crc h) as [c|]; [|exfalso; exact (ACK_neq_NACK Hnack)].
    exists c, data. split; [reflexivity|].
    split; [rewrite Hfiles; apply lookup_insert_eq|]. split; [lia|].
    intros Heq. rewrite Heq, Z.eqb_refl in Hnack.
    exact (ACK_neq_NACK Hnack).
Qed.

Lemma received_equals_declared_size_witness :
  let P := bytes_of "123456789" in
  let w := line_with P [4; 0; 3; 7]%nat in
  let h := Header "a.wav" 9 (Some 0) in
  let path := pc_path "a.wav" in
  received (fst (recv_payload path 9 (Some 0) (open_wb path w))) = 9 /\
  exists c data,
    h_crc h = Some c /\
    files (fst (receive_file path h w)) !! path = Some data /\
    Z.of_nat (length data) = h_size h /\
    crc32 data <> c.
Proof.
  intros P w h path.
  destruct (received_equals_declared_size path h w) as (_ & _ & _ & H4 & H5);
    [cbn; lia|].
  split; [apply H4; vm_compute; reflexivity|].
  apply H5; vm_compute; reflexivity.
Defined.

(** ** The receivers, for any builtins *)

Section ReceiverFacts.

Variable decode : list byte -> option string.
Variable strip : string -> string.
Variable py_int : string -> option Z.
Variable py_int0 : string -> option Z.
Variable process_day : gmap string (list byte) -> gmap string (list byte).

Lemma ser_readline_spec s :
  rx s = fst (ser_readline s) ++ rx (snd (ser_readline s)) /\
  tx (snd (ser_readline s)) = tx s.
Proof.
  unfold ser_readline. destruct (arrivals s) as [|k ks]; [by cbn|].
  cbn [fst snd rx tx]. split; [|reflexivity].
  assert (Hpre : forall l : list byte,
            l = line_prefix l ++ drop (length (line_prefix l)) l).
  { induction l as [|b l IH]; [reflexivity|]. cbn [line_prefix].
    destruct (Byte.eqb b newline); cbn; [reflexivity|]. by rewrite <- IH. }
  assert (Hlen : forall (l : list byte) n,
            line_prefix (take n l) = take (length (line_prefix (take n l))) l).
  { intros l n. revert l. induction n as [|n IH]; intros [|b l];
      try reflexivity.
    cbn [take line_prefix]. destruct (Byte.eqb b newline); cbn;
      [reflexivity|]. by rewrite <- IH. }
  rewrite (Hlen (rx s) k) at 1. by rewrite take_drop.
Qed.

Lemma parse_malformed text :
  (length (split_comma text) < 2)%nat \/
  py_int (nth 1 (split_comma text) ""%string) = None ->
  pc_parse_header py_int py_int0 text = None /\
  micro_parse_header py_int py_int0 text = None.
Proof.
  unfold pc_parse_header, micro_parse_header.
  destruct (split_comma text) as [|filename [|size_str more]];
    cbn [length nth]; intros [H|H]; try lia; auto.
  rewrite H. auto.
Qed.

(** C4: a header line that has fewer than two comma-separated fields, or
    whose size field [int] rejects, is rejected by both receivers, which
    then go back to listening: the pc receiver has taken the header line
    from the stream and nothing else, has written nothing to the line and
    no file, and its loop goes on with the bytes that follow the line; the
    micro receiver leaves its state as it was. *)
Theorem malformed_header_is_skipped (text : string) :
  (length (split_comma text) < 2)%nat \/
  py_int (nth 1 (split_comma text) ""%string) = None ->
  pc_parse_header py_int py_int0 text = None /\
  micro_parse_header py_int py_int0 text = None /\
  (forall w raw,
     decode (fst (ser_readline (ser w))) = Some raw ->
     strip raw = text ->
     let w' := fst (receive_one decode strip py_int py_int0 w) in
     snd (receive_one decode strip py_int py_int0 w) = true /\
     rx (ser w) = fst (ser_readline (ser w)) ++ rx (ser w') /\
     ser w' = snd (ser_readline (ser w)) /\
     tx (ser w') = tx (ser w) /\
     files w' = files w /\
     log w' = log w ++ [EvReadLine (fst (ser_readline (ser w)))] /\
     forall gpio,
       receiver_loop decode strip py_int py_int0 (false :: gpio) w =
       receiver_loop decode strip py_int py_int0 gpio
         (fst (receive_one decode strip py_int py_int0
                 (emit (EvGpio false) w)))) /\
  (forall w header_bytes,
     decode header_bytes = Some text ->
     micro_handle_header decode py_int py_int0 header_bytes w = (w, true)).
Proof.
  intros Hbad. destruct (parse_malformed text Hbad) as [Hpc Hmicro].
  split; [exact Hpc|]. split; [exact Hmicro|]. split.
  - intros w raw Hdec Hstrip.
    assert (Hone : forall v,
              ser v = ser w ->
              receive_one decode strip py_int py_int0 v =
              (emit (EvReadLine (fst (ser_readline (ser w))))
                 (World (snd (ser_readline (ser w))) (files v) (log v)),
               true)).
    { intros v Hv. unfold receive_one. rewrite Hv.
      destruct (ser_readline (ser w)) as [line s'] eqn:Eline.
      cbn [fst snd] in *. rewrite Hdec, Hstrip, Hpc.
      destruct line; reflexivity. }
    cbn zeta. rewrite (Hone w eq_refl). cbn [fst snd emit ser files log].
    destruct (ser_readline_spec (ser w)) as [Hrx Htx].
    repeat split; try assumption.
    intros gpio. cbn [receiver_loop].
    rewrite (Hone (emit (EvGpio false) w) eq_refl). reflexivity.
  - intros w header_bytes Hdec. unfold micro_handle_header.
    rewrite Hdec, Hmicro. destruct header_bytes; reflexivity.
Qed.

(** *** Where the files go (C9) *)

Lemma receive_file_elsewhere path h w q :
  q <> path -> files (fst (receive_file path h w)) !! q = files w !! q.
Proof.
  intros Hq. destruct (receive_file_spec path h w) as (data & _ & -> & _).
  apply lookup_insert_ne. congruence.
Qed.

Lemma dirname_pc_path filename :
  os_path_dirname (pc_path filename) = AUDIO_DIR.
Proof. rewrite pc_path_eq. apply dirname_audio_dir, basename_no_sep. Qed.

Lemma receive_one_elsewhere w q :
  os_path_dirname q <> AUDIO_DIR ->
  files (fst (receive_one decode strip py_int py_int0 w)) !! q
    = files w !! q.
Proof.
  intros Hq. unfold receive_one.
  destruct (ser_readline (ser w)) as [line s'].
  destruct line as [|b line]; [reflexivity|].
  destruct (decode _) as [text|]; [|reflexivity].
  destruct (pc_parse_header _ _ _) as [h|]; [|reflexivity].
  rewrite receive_file_elsewhere; [reflexivity|].
  intros ->. apply Hq, dirname_pc_path.
Qed.

Lemma micro_handle_header_elsewhere header_bytes w q :
  os_path_dirname q <> AUDIO_DIR ->
  files (fst (micro_handle_header decode py_int py_int0 header_bytes w)) !! q
    = files w !! q.
Proof.
  intros Hq. unfold micro_handle_header.
  destruct header_bytes as [|b l]; [reflexivity|].
  destruct (decode _) as [text|]; [|reflexivity].
  destruct (micro_parse_header _ _ _) as [h|]; [|reflexivity].
  rewrite receive_file_elsewhere; [reflexivity|].
  intros ->. apply Hq. rewrite micro_path_eq.
  apply dirname_audio_dir, basename_no_sep.
Qed.

Lemma receiver_loop_elsewhere gpio w q :
  os_path_dirname q <> AUDIO_DIR ->
  files (receiver_loop decode strip py_int py_int0 gpio w).1.2 !! q
    = files w !! q.
Proof.
  intros Hq. revert w. induction gpio as [|[|] gpio IH]; intros w;
    cbn [receiver_loop]; try reflexivity.
  pose proof (receive_one_elsewhere (emit (EvGpio false) w) q Hq) as Hone.
  destruct (receive_one _ _ _ _ _) as [w' [|]]; cbn [fst snd] in *.
  - rewrite IH. exact Hone.
  - exact Hone.
Qed.

(** C9: the path a transfer is written to is the audio directory, a
    separator, and the basename of the declared filename, which contains no
    separator: its directory is the audio directory and its last component
    that basename; a finished transfer leaves the bytes received at that
    path; and whatever the line carries, no file whose directory is not the
    audio directory is changed by the pc receiver, by a whole run of
    [uart_receiver], or by the micro receiver. *)
Theorem transfer_written_under_audio_dir (filename : string) :
  has_sep (os_path_basename filename) = false /\
  pc_path filename = (AUDIO_DIR ++ "/" ++ os_path_basename filename)%string
  /\
  micro_path filename = pc_path filename /\
  os_path_dirname (pc_path filename) = AUDIO_DIR /\
  os_path_basename (pc_path filename) = os_path_basename filename /\
  (forall size expected_crc w,
     let r := receive_file (pc_path filename)
                (Header filename size expected_crc) w in
     snd r = true ->
     exists data,
       rx (ser w) = data ++ rx (ser (fst r)) /\
       files (fst r) = <[pc_path filename := data]> (files w)) /\
  (forall w q,
     os_path_dirname q <> AUDIO_DIR ->
     files (fst (receive_one decode strip py_int py_int0 w)) !! q
       = files w !! q) /\
  (forall gpio w q,
     os_path_dirname q <> AUDIO_DIR ->
     files (uart_receiver decode strip py_int py_int0 gpio w).1.2 !! q
       = files w !! q) /\
  (forall header_bytes w q,
     os_path_dirname q <> AUDIO_DIR ->
     files (fst (micro_handle_header decode py_int py_int0 header_bytes w))
       !! q = files w !! q).
Proof.
  split; [apply basename_no_sep|]. split; [apply pc_path_eq|].
  split; [rewrite pc_path_eq; apply micro_path_eq|].
  split; [apply dirname_pc_path|].
  split; [rewrite pc_path_eq; apply after_last_sep_dir, basename_no_sep|].
  split; [|split; [|split]].
  - intros size expected_crc w r _. subst r.
    destruct (receive_file_spec (pc_path filename)
                (Header filename size expected_crc) w)
      as (data & Hrx & Hfiles & _).
    exists data. split; assumption.
  - intros w q. apply receive_one_elsewhere.
  - intros gpio w q Hq. unfold uart_receiver.
    rewrite receiver_loop_elsewhere by exact Hq. reflexivity.
  - intros header_bytes w q. apply micro_handle_header_elsewhere.
Qed.

End ReceiverFacts.

Lemma malformed_header_is_skipped_witness :
  let w := line_with (bytes_of "junk" ++ [newline] ++ bytes_of "a.wav,3"
                        ++ [newline] ++ bytes_of "abc")
                     [100; 100; 100]%nat in
  let w' := fst (ascii_receive_one w) in
  snd (ascii_receive_one w) = true /\
  rx (ser w') = bytes_of "a.wav,3" ++ [newline] ++ bytes_of "abc" /\
  tx (ser w') = [] /\ files w' = files w /\
  tx (ser (fst (ascii_receive_one w'))) = ACK /\
  files (fst (ascii_receive_one w')) !! pc_path "a.wav"
    = Some (bytes_of "abc").
Proof.
  intros w w'.
  assert (Hbad : (length (split_comma "junk") < 2)%nat \/
                 ascii_int (nth 1 (split_comma "junk") ""%string) = None)
    by (left; vm_compute; lia).
  destruct (malformed_header_is_skipped ascii_decode ascii_strip ascii_int
              ascii_int0 "junk" Hbad)
    as (_ & _ & Hpc & _).
  destruct (Hpc w ("junk" ++ String (ascii_of_byte newline) "")%string
              eq_refl eq_refl)
    as (Hcont & _ & _ & Htx & Hfiles & _).
  split; [exact Hcont|]. split; [vm_compute; reflexivity|].
  split; [exact Htx|]. split; [exact Hfiles|].
  split; vm_compute; reflexivity.
Defined.

(** ** Mode exclusivity (C3) *)

Lemma run_phase_app ph evs1 evs2 :
  run_phase ph (evs1 ++ evs2) =
  match run_phase ph evs1 with
  | Some ph' => run_phase ph' evs2
  | None => None
  end.
Proof.
  revert ph. induction evs1 as [|e evs1 IH]; intros ph; [reflexivity|].
  cbn [app run_phase]. destruct (phase_step ph e); [apply IH|reflexivity].
Qed.

Lemma run_phase_split ph pre e post ph' :
  run_phase ph (pre ++ e :: post) = Some ph' ->
  exists ph1 ph2,
    run_phase ph pre = Some ph1 /\ phase_step ph1 e = Some ph2 /\
    run_phase ph2 post = Some ph'.
Proof.
  rewrite run_phase_app. destruct (run_phase ph pre) as [ph1|]; [|discriminate].
  cbn [run_phase]. destruct (phase_step ph1 e) as [ph2|] eqn:E; [|discriminate].
  eauto.
Qed.

Lemma phase_step_write ph path chunk ph' :
  phase_step ph (EvFileWrite path chunk) = Some ph' -> ph = InTransfer path.
Proof.
  destruct ph as [| | | | | |[|]| | |path'|]; cbn; try discriminate.
  destruct (String.eqb_spec path' path); [congruence|discriminate].
Qed.

Lemma phase_step_enter ph ph' :
  phase_step ph EvEnterProcessing = Some ph' ->
  ph = Confirmed /\ ph' = Processing.
Proof.
  destruct ph as [| | | | | |[|]| | |path'|]; cbn; try discriminate.
  intros [= <-]. auto.
Qed.

Lemma phase_step_high_listening b e ph ph' :
  phase_step (Listening b) (EvGpio true) = Some ph ->
  phase_step ph e = Some ph' -> e = EvSerClose.
Proof.
  destruct b; cbn; intros [= <-]; destruct e; cbn; congruence.
Qed.

Lemma processing_until_left ph mid ph' :
  ph = Processing \/ ph = Resuming ->
  run_phase ph mid = Some ph' ->
  ph' = Processing \/ ph' = Resuming \/ In EvLeaveProcessing mid.
Proof.
  revert ph. induction mid as [|e mid IH]; intros ph Hph Hrun.
  - cbn in Hrun. injection Hrun as <-. tauto.
  - cbn [run_phase] in Hrun.
    destruct (phase_step ph e) as [ph1|] eqn:E; [|discriminate].
    destruct Hph as [-> | ->]; destruct e as [[|]| | | | | | | | |];
      cbn in E; try discriminate; injection E as <-.
    + destruct (IH Processing (or_introl eq_refl) Hrun) as [H|[H|H]];
        [tauto|tauto|right; right; right; exact H].
    + destruct (IH Resuming (or_intror eq_refl) Hrun) as [H|[H|H]];
        [tauto|tauto|right; right; right; exact H].
    + right. right. left. reflexivity.
Qed.

(** A trace the phases allow from [Idle] keeps file writes inside transfers
    and out of State B. *)
Lemma allowed_trace_exclusive evs ph :
  run_phase Idle evs = Some ph ->
  (forall pre path chunk post,
     evs = pre ++ EvFileWrite path chunk :: post ->
     run_phase Idle pre = Some (InTransfer path)) /\
  (forall pre post,
     evs = pre ++ EvEnterProcessing :: post ->
     run_phase Idle pre = Some Confirmed) /\
  (forall pre mid path chunk post,
     evs = pre ++ EvEnterProcessing :: mid ++ EvFileWrite path chunk :: post ->
     In EvLeaveProcessing mid) /\
  (forall pre b e post,
     evs = pre ++ EvGpio true :: e :: post ->
     run_phase Idle pre = Some (Listening b) ->
     e = EvSerClose).
Proof.
  intros Hrun. split; [|split; [|split]].
  - intros pre path chunk post ->.
    apply run_phase_split in Hrun as (ph1 & ph2 & Hpre & Hstep & _).
    apply phase_step_write in Hstep. congruence.
  - intros pre post ->.
    apply run_phase_split in Hrun as (ph1 & ph2 & Hpre & Hstep & _).
    apply phase_step_enter in Hstep as [-> _]. exact Hpre.
  - intros pre mid path chunk post ->.
    apply run_phase_split in Hrun as (ph1 & ph2 & _ & Hstep & Hrest).
    apply phase_step_enter in Hstep as [_ ->].
    apply run_phase_split in Hrest as (ph3 & ph4 & Hmid & Hstep & _).
    apply phase_step_write in Hstep. subst ph3.
    destruct (processing_until_left Processing mid _ (or_introl eq_refl)
                Hmid) as [H|[H|H]]; [discriminate|discriminate|exact H].
  - intros pre b e post -> Hpre.
    apply run_phase_split in Hrun as (ph1 & ph2 & Hpre' & Hstep & Hrest).
    rewrite Hpre in Hpre'. injection Hpre' as <-.
    cbn [run_phase] in Hrest.
    destruct (phase_step ph2 e) as [ph3|] eqn:E; [|discriminate].
    exact (phase_step_high_listening b e ph2 ph3 Hstep E).
Qed.

Section ModeFacts.

Variable decode : list byte -> option string.
Variable strip : string -> string.
Variable py_int : string -> option Z.
Variable py_int0 : string -> option Z.
Variable process_day : gmap string (list byte) -> gmap string (list byte).

Lemma continues_refl w ph : continues w w ph ph.
Proof. exists []. by rewrite app_nil_r. Qed.

Lemma continues_trans w1 w2 w3 ph1 ph2 ph3 :
  continues w1 w2 ph1 ph2 -> continues w2 w3 ph2 ph3 ->
  continues w1 w3 ph1 ph3.
Proof.
  intros (evs1 & Hl1 & Hr1) (evs2 & Hl2 & Hr2). exists (evs1 ++ evs2).
  split; [rewrite Hl2, Hl1, app_assoc; reflexivity|].
  rewrite run_phase_app, Hr1. exact Hr2.
Qed.

Lemma continues_emit w e ph ph' :
  phase_step ph e = Some ph' -> continues w (emit e w) ph ph'.
Proof. intros H. exists [e]. split; [reflexivity|]. cbn. by rewrite H. Qed.

Lemma continues_same_log w w' ph :
  log w' = log w -> continues w w' ph ph.
Proof. intros H. exists []. by rewrite app_nil_r. Qed.

Lemma recv_chunk_continues path size ecrc p :
  continues (p_world p) (p_world (recv_chunk path size ecrc p))
    (InTransfer path) (InTransfer path).
Proof.
  unfold recv_chunk. destruct (ser_read _ _) as [chunk s'].
  destruct chunk as [|b chunk]; cbn [p_world].
  - by apply continues_same_log.
  - exists [EvFileWrite path (b :: chunk)]. split; [reflexivity|].
    cbn. by rewrite String.eqb_refl.
Qed.

Lemma recv_loop_continues fuel path size ecrc p :
  continues (p_world p) (p_world (fst (recv_loop fuel path size ecrc p)))
    (InTransfer path) (InTransfer path).
Proof.
  revert p. induction fuel as [|fuel IH]; intros p; cbn [recv_loop];
    destruct (received p <? size); cbn [fst]; try apply continues_refl.
  eapply continues_trans; [apply recv_chunk_continues|apply IH].
Qed.

Lemma receive_file_continues path h w :
  exists ph,
    continues w (fst (receive_file path h w)) (Listening true) ph /\
    (snd (receive_file path h w) = true -> ph = Listening false).
Proof.
  unfold receive_file, recv_payload.
  pose proof (recv_loop_continues (length (arrivals (ser (open_wb path w))))
                path (h_size h) (h_crc h) (Progress (open_wb path w) 0 0))
    as Hloop.
  destruct (recv_loop _ _ _ _ _) as [p' finished]. cbn [fst p_world] in Hloop.
  assert (Hopen : continues w (p_world p') (Listening true)
                    (InTransfer path)).
  { eapply continues_trans; [|exact Hloop].
    exists [EvFileOpen path]. split; reflexivity. }
  destruct finished; cbn [fst snd].
  - exists (Listening false). split; [|reflexivity].
    eapply continues_trans; [exact Hopen|].
    exists [EvFileClose path;
            EvSerWrite (if transfer_ok (h_size h) (h_crc h) p'
                        then ACK else NACK)].
    split; [cbn; by rewrite <- app_assoc|].
    cbn. by rewrite String.eqb_refl.
  - exists (InTransfer path). split; [exact Hopen|discriminate].
Qed.

Lemma receive_one_continues w :
  exists ph,
    continues w (fst (receive_one decode strip py_int py_int0 w)) Polled ph /\
    (snd (receive_one decode strip py_int py_int0 w) = true ->
     exists b, ph = Listening b).
Proof.
  unfold receive_one. destruct (ser_readline (ser w)) as [line s'].
  set (w1 := emit (EvReadLine line) (World s' (files w) (log w))).
  assert (H1 : continues w w1 Polled (Listening true)).
  { exists [EvReadLine line]. split; reflexivity. }
  assert (Hskip : exists ph, continues w (fst (w1, true)) Polled ph /\
                    (snd (w1, true) = true -> exists b, ph = Listening b)).
  { exists (Listening true). split; [exact H1|]. eauto. }
  destruct line as [|b0 line]; [exact Hskip|].
  destruct (decode _) as [text|]; [|exact Hskip].
  destruct (pc_parse_header _ _ _) as [h|]; [|exact Hskip].
  destruct (receive_file_continues (pc_path (h_filename h)) h w1)
    as (ph & Hc & Hdone).
  exists ph. split; [eapply continues_trans; eassumption|].
  intros Hfin. exists false. apply Hdone, Hfin.
Qed.

Lemma receiver_loop_continues gpio w b :
  exists ph,
    continues w (receiver_loop decode strip py_int py_int0 gpio w).1.2
      (Listening b) ph /\
    ((receiver_loop decode strip py_int py_int0 gpio w).2 = Returned ->
     ph = Idle).
Proof.
  revert w b. induction gpio as [|[|] gpio IH]; intros w b;
    cbn [receiver_loop].
  - exists (Listening b). split; [apply continues_refl|discriminate].
  - exists Idle. split; [|reflexivity].
    exists [EvGpio true; EvSerClose]. split; [cbn; by rewrite <- app_assoc|].
    by destruct b.
  - destruct (receive_one_continues (emit (EvGpio false) w))
      as (ph & Hc & Hdone).
    assert (Hpoll : continues w (emit (EvGpio false) w) (Listening b) Polled)
      by (apply continues_emit; by destruct b).
    destruct (receive_one _ _ _ _ _) as [w' [|]]; cbn [fst snd] in *.
    + destruct (Hdone eq_refl) as [b' ->].
      destruct (IH w' b') as (ph' & Hc' & Hret).
      exists ph'. split; [|exact Hret].
      eapply continues_trans; [exact Hpoll|].
      eapply continues_trans; eassumption.
    + exists ph. split; [|discriminate].
      eapply continues_trans; eassumption.
Qed.

Lemma uart_receiver_continues gpio w :
  exists ph,
    continues w (uart_receiver decode strip py_int py_int0 gpio w).1.2
      Starting ph /\
    ((uart_receiver decode strip py_int py_int0 gpio w).2 = Returned ->
     ph = Idle).
Proof.
  unfold uart_receiver.
  destruct (receiver_loop_continues gpio (emit EvSerOpen w) false)
    as (ph & Hc & Hret).
  exists ph. split; [|exact Hret].
  eapply continues_trans; [|exact Hc]. by apply continues_emit.
Qed.

Lemma wait_low_continues gpio w :
  exists ph,
    continues w (wait_low gpio w).1.2 Processing ph /\
    ((wait_low gpio w).2 = true -> ph = Resuming).
Proof.
  revert w. induction gpio as [|[|] gpio IH]; intros w; cbn [wait_low].
  - exists Processing. split; [apply continues_refl|discriminate].
  - destruct (IH (emit (EvGpio true) w)) as (ph & Hc & Hdone).
    exists ph. split; [|exact Hdone].
    eapply continues_trans; [|exact Hc]. by apply continues_emit.
  - exists Resuming. split; [|reflexivity]. by apply continues_emit.
Qed.

Lemma main_loop_continues fuel gpio w :
  exists ph,
    continues w
      (snd (main_loop decode strip py_int py_int0 process_day fuel gpio w))
      Idle ph.
Proof.
  revert gpio w. induction fuel as [|fuel IH]; intros gpio w;
    cbn [main_loop]; [exists Idle; apply continues_refl|].
  destruct gpio as [|[|] gpio1]; [exists Idle; apply continues_refl| |].
  - (* first reading high *)
    destruct gpio1 as [|[|] gpio2]; cbn [snd].
    + exists Debounce. by apply continues_emit.
    + set (w2 := emit EvEnterProcessing
                   (emit (EvGpio true) (emit (EvGpio true) w))).
      set (w3 := World (ser w2) (process_day (files w2)) (log w2)).
      assert (H3 : continues w w3 Idle Processing).
      { exists [EvGpio true; EvGpio true; EvEnterProcessing].
        split; [cbn; by rewrite <- !app_assoc|reflexivity]. }
      destruct (wait_low_continues gpio2 w3) as (ph & Hc & Hdone).
      destruct (wait_low gpio2 w3) as [[gpio3 w4] [|]]; cbn [fst snd] in *.
      * rewrite (Hdone eq_refl) in Hc.
        destruct (IH gpio3 (emit EvLeaveProcessing w4)) as (ph' & Hc').
        exists ph'.
        eapply continues_trans; [exact H3|].
        eapply continues_trans; [exact Hc|].
        eapply continues_trans; [|exact Hc']. by apply continues_emit.
      * exists ph. eapply continues_trans; eassumption.
    + destruct (IH gpio2 (emit (EvGpio false) (emit (EvGpio true) w)))
        as (ph & Hc).
      exists ph. eapply continues_trans; [|exact Hc].
      exists [EvGpio true; EvGpio false].
      split; [cbn; by rewrite <- app_assoc|reflexivity].
  - (* first reading low: State A *)
    destruct (uart_receiver_continues gpio1 (emit (EvGpio false) w))
      as (ph & Hc & Hret).
    assert (H1 : continues w (emit (EvGpio false) w) Idle Starting)
      by (by apply continues_emit).
    destruct (uart_receiver _ _ _ _ _ _) as [[gpio2 w'] out];
      cbn [fst snd] in *.
    destruct out; cbn [snd].
    + rewrite (Hret eq_refl) in Hc.
      destruct (IH gpio2 w') as (ph' & Hc'). exists ph'.
      eapply continues_trans; [exact H1|].
      eapply continues_trans; eassumption.
    + exists ph. eapply continues_trans; eassumption.
    + exists ph. eapply continues_trans; eassumption.
Qed.

(** C3: in every run of [main], for any levels of the pin and anything on
    the line, the events follow the phases: a file is written only inside a
    transfer of the receiver; State B is entered only from [main], after
    the pin was read high twice, the receiver having returned and closed its
    stream, so never while a transfer is under way; between entering State
    B and leaving it no file is written by the receiver; and when the
    receiver reads the pin high at the top of its loop the next thing it
    does is close the stream, before any further header is read. *)
Theorem receiver_never_writes_while_processing (fuel : nat)
    (gpio : list bool) (w : world) :
  exists evs ph,
    log (snd (main_loop decode strip py_int py_int0 process_day fuel gpio w))
      = log w ++ evs /\
    run_phase Idle evs = Some ph /\
    (forall pre path chunk post,
       evs = pre ++ EvFileWrite path chunk :: post ->
       run_phase Idle pre = Some (InTransfer path)) /\
    (forall pre post,
       evs = pre ++ EvEnterProcessing :: post ->
       run_phase Idle pre = Some Confirmed) /\
    (forall pre mid path chunk post,
       evs = pre ++ EvEnterProcessing :: mid
               ++ EvFileWrite path chunk :: post ->
       In EvLeaveProcessing mid) /\
    (forall pre b e post,
       evs = pre ++ EvGpio true :: e :: post ->
       run_phase Idle pre = Some (Listening b) ->
       e = EvSerClose).
Proof.
  destruct (main_loop_continues fuel gpio w) as (ph & evs & Hlog & Hrun).
  exists evs, ph. split; [exact Hlog|]. split; [exact Hrun|].
  exact (allowed_trace_exclusive evs ph Hrun).
Qed.

End ModeFacts.

(** The header [clip.wav,1024,0xefb5af2e] followed by 1024 zero bytes, whose
    CRC-32 it is, arriving in two pieces. *)
Example clip_wav_is_acknowledged :
  let payload := replicate 1024 "000"%byte in
  let w := line_with (bytes_of "clip.wav,1024,0xefb5af2e" ++ [newline]
                        ++ payload) [100; 500; 0; 1024]%nat in
  let w' := fst (ascii_receive_one w) in
  crc32 payload = 0xefb5af2e /\
  files w' !! "/home/pi/wav_pipeline/audio/clip.wav"%string = Some payload /\
  tx (ser w') = ACK /\ rx (ser w') = [].
Proof. vm_compute. repeat split. Qed.

Example wrong_checksum_is_refused :
  let w := line_with (bytes_of "clip.wav,3,0x1a2b3c4d" ++ [newline]
                        ++ bytes_of "abc") [100; 100]%nat in
  let w' := fst (ascii_receive_one w) in
  files w' !! "/home/pi/wav_pipeline/audio/clip.wav"%string
    = Some (bytes_of "abc") /\
  tx (ser w') = NACK.
Proof. vm_compute. repeat split. Qed.

Example main_run_follows_phases :
  let w := line_with (bytes_of "a.wav,3" ++ [newline] ++ bytes_of "abc")
                     [100; 2; 1; 100]%nat in
  let gpio := [false; false; false; true; true; true; true; false; false;
               true] in
  let r := main_loop ascii_decode ascii_strip ascii_int ascii_int0
             (fun fs => fs) 5 gpio w in
  run_phase Idle (log (snd r)) = Some Idle /\
  List.filter (fun e => match e with
                   | EvFileWrite _ _ | EvEnterProcessing
                   | EvLeaveProcessing | EvSerClose => true
                   | _ => false
                   end) (log (snd r))
  = [EvFileWrite (pc_path "a.wav") (bytes_of "ab");
     EvFileWrite (pc_path "a.wav") (bytes_of "c");
     EvSerClose; EvEnterProcessing; EvLeaveProcessing; EvSerClose].
Proof. vm_compute. repeat split. Qed.

Example traversal_attempt_stays_inside :
  let w := line_with (bytes_of "../../etc/passwd,3" ++ [newline]
                        ++ bytes_of "abc") [100; 100]%nat in
  let w' := fst (ascii_receive_one w) in
  files w' !! "/home/pi/wav_pipeline/audio/passwd"%string
    = Some (bytes_of "abc") /\
  files w' !! "/etc/passwd"%string = None /\
  tx (ser w') = ACK.
Proof. vm_compute. repeat split. Qed.

End ReceiverProofs.

(** * Further properties *)

(** ** crc32_update: chunking and error detection *)

Module Crc32Extras.

Import Crc32 Crc32Proofs.

Lemma testbit_31_shiftr c : u32 c -> Z.testbit (Z.shiftr c 1) 31 = false.
Proof.
  intros [H0 H1]. rewrite Z.shiftr_spec by lia.
  destruct (Z.eq_dec c 0) as [->|Hne]; [reflexivity|].
  apply Z.bits_above_log2; [lia|]. apply Z.log2_lt_pow2; lia.
Qed.

(** The top bit of the register after a step is the bit shifted out. *)
Lemma crc_bit_top c : u32 c -> Z.testbit (crc_bit c) 31 = Z.testbit c 0.
Proof.
  intros Hc. unfold crc_bit. destruct (Z.testbit c 0).
  - rewrite Z.lxor_spec, (testbit_31_shiftr c Hc). reflexivity.
  - apply testbit_31_shiftr, Hc.
Qed.

Lemma lxor_cancel_r a b c : Z.lxor a c = Z.lxor b c -> a = b.
Proof.
  intros H.
  assert (Hx : forall x, Z.lxor (Z.lxor x c) c = x).
  { intros x. rewrite Z.lxor_assoc, Z.lxor_nilpotent. apply Z.lxor_0_r. }
  rewrite <- (Hx a), H. apply Hx.
Qed.

Lemma lxor_cancel_l a b c : Z.lxor c a = Z.lxor c b -> a = b.
Proof. rewrite !(Z.lxor_comm c). apply lxor_cancel_r. Qed.

Lemma shiftr_bit0_inj c c' :
  Z.shiftr c 1 = Z.shiftr c' 1 -> Z.testbit c 0 = Z.testbit c' 0 -> c = c'.
Proof.
  intros Hs Hb. rewrite !Z.shiftr_div_pow2 in Hs by lia.
  change (2 ^ 1) with 2 in Hs.
  apply (f_equal Z.b2z) in Hb. rewrite !Z.bit0_mod in Hb.
  rewrite (Z.div_mod c 2), (Z.div_mod c' 2) by lia. congruence.
Qed.

Lemma crc_bit_inj c c' : u32 c -> u32 c' -> crc_bit c = crc_bit c' -> c = c'.
Proof.
  intros Hc Hc' Heq.
  assert (Hb : Z.testbit c 0 = Z.testbit c' 0).
  { rewrite <- (crc_bit_top c Hc), <- (crc_bit_top c' Hc'). congruence. }
  apply shiftr_bit0_inj; [|exact Hb].
  unfold crc_bit in Heq. rewrite <- Hb in Heq.
  destruct (Z.testbit c 0); [apply (lxor_cancel_r _ _ poly)|]; exact Heq.
Qed.

Lemma iter_crc_bit_u32 n c : u32 c -> u32 (Nat.iter n crc_bit c).
Proof.
  intros Hc. induction n as [|n IH]; [exact Hc|]. cbn [Nat.iter].
  apply crc_bit_u32, IH.
Qed.

Lemma iter_crc_bit_inj n c c' :
  u32 c -> u32 c' -> Nat.iter n crc_bit c = Nat.iter n crc_bit c' -> c = c'.
Proof.
  intros Hc Hc'. induction n as [|n IH]; [auto|]. cbn [Nat.iter].
  intros H. apply IH. apply crc_bit_inj; [| |exact H];
    apply iter_crc_bit_u32; assumption.
Qed.

Lemma byte_val_u32 b : u32 (byte_val b).
Proof. pose proof (byte_val_range b). unfold u32. lia. Qed.

Lemma byte_val_inj b b' : byte_val b = byte_val b' -> b = b'.
Proof.
  unfold byte_val. intros H. apply N2Z.inj in H.
  assert (Hs : Some b = Some b').
  { rewrite <- (Byte.of_to_N b), <- (Byte.of_to_N b'), H. reflexivity. }
  congruence.
Qed.

(** The register after a byte determines the register before it. *)
Lemma crc_byte_inj_reg c c' b :
  u32 c -> u32 c' -> crc_byte c b = crc_byte c' b -> c = c'.
Proof.
  intros Hc Hc' H. unfold crc_byte in H.
  apply iter_crc_bit_inj in H;
    [|apply lxor_u32; [assumption|apply byte_val_u32]..].
  exact (lxor_cancel_r _ _ _ H).
Qed.

(** From the same register, different bytes lead to different registers. *)
Lemma crc_byte_inj_byte c b b' :
  u32 c -> crc_byte c b = crc_byte c b' -> b = b'.
Proof.
  intros Hc H. unfold crc_byte in H.
  apply iter_crc_bit_inj in H;
    [|apply lxor_u32; [assumption|apply byte_val_u32]..].
  apply byte_val_inj. exact (lxor_cancel_l _ _ _ H).
Qed.

Lemma fold_crc_byte_inj data c c' :
  u32 c -> u32 c' ->
  fold_left crc_byte data c = fold_left crc_byte data c' -> c = c'.
Proof.
  revert c c'. induction data as [|b data IH]; intros c c' Hc Hc' H;
    [exact H|].
  cbn [fold_left] in H. apply IH in H; [|by apply crc_byte_u32..].
  exact (crc_byte_inj_reg _ _ _ Hc Hc' H).
Qed.

Lemma crc32_register data :
  crc32 data = Z.lxor (fold_left crc_byte data mask32) mask32.
Proof.
  unfold crc32, crc32_update. change 0xFFFFFFFF with mask32.
  rewrite land_mask32 by apply binascii_crc32_u32. reflexivity.
Qed.

Lemma fold_crc32_update chunks c :
  u32 c -> fold_left crc32_update chunks c = crc32_update c (concat chunks).
Proof.
  revert c. induction chunks as [|a chunks IH]; intros c Hc.
  - cbn. symmetry. apply crc32_update_nil, Hc.
  - cbn [fold_left concat]. rewrite IH by apply crc32_update_u32.
    apply crc32_update_app.
Qed.

(** X1: the running checksum does not depend on how the payload is cut
    into chunks: feeding the chunks to [crc32_update] one after the other,
    from 0, gives the CRC-32 of their concatenation, which is a 32-bit
    value. *)
Theorem crc32_of_chunks (chunks : list (list byte)) :
  fold_left crc32_update chunks 0 = crc32 (concat chunks) /\
  0 <= crc32 (concat chunks) < 2 ^ 32.
Proof.
  split.
  - apply fold_crc32_update. unfold u32. lia.
  - apply crc32_update_u32.
Qed.

(** X2: two payloads of the same length that differ in exactly one byte
    have different CRC-32 values. *)
Theorem crc32_detects_one_byte (pre suf : list byte) (b b' : byte) :
  b <> b' -> crc32 (pre ++ b :: suf) <> crc32 (pre ++ b' :: suf).
Proof.
  intros Hne Heq. apply Hne. rewrite !crc32_register in Heq.
  apply lxor_cancel_r in Heq. rewrite !fold_left_app in Heq.
  cbn [fold_left] in Heq.
  assert (Hr : u32 (fold_left crc_byte pre mask32))
    by apply fold_crc_byte_u32, mask32_u32.
  apply fold_crc_byte_inj in Heq; [|by apply crc_byte_u32..].
  exact (crc_byte_inj_byte _ _ _ Hr Heq).
Qed.

Lemma crc32_detects_one_byte_witness :
  crc32 [ "a"%byte; "b"%byte; "c"%byte ]
  <> crc32 [ "a"%byte; "x"%byte; "c"%byte ].
Proof.
  apply (crc32_detects_one_byte [ "a"%byte ] [ "c"%byte ] "b"%byte "x"%byte).
  discriminate.
Defined.

End Crc32Extras.

(** ** The UART receiver: corruption, short payloads, overwriting, parsing *)

Module ReceiverExtras.

Import Crc32 Crc32Proofs Crc32Extras Receiver ReceiverProofs Notions.

(** X3: when the header declares the length and the CRC-32 of a payload and
    the line delivers that payload with exactly one byte changed, the
    transfer ends, the receiver answers NACK, and the file holds the
    bytes as they arrived. *)
Theorem one_corrupted_byte_is_refused (path : string) (h : header)
    (w : world) (pre suf rest : list byte) (b b' : byte) :
  b <> b' ->
  rx (ser w) = (pre ++ b' :: suf) ++ rest ->
  h_size h = Z.of_nat (length (pre ++ b :: suf)) ->
  h_crc h = Some (crc32 (pre ++ b :: suf)) ->
  delivers (length (pre ++ b :: suf)) (ser w) ->
  snd (receive_file path h w) = true /\
  tx (ser (fst (receive_file path h w))) = tx (ser w) ++ NACK /\
  files (fst (receive_file path h w)) !! path = Some (pre ++ b' :: suf).
Proof.
  intros Hne Hrx Hsize Hcrc Hdel.
  assert (Hlen : length (pre ++ b' :: suf) = length (pre ++ b :: suf))
    by (rewrite !length_app; reflexivity).
  assert (Hdone : snd (receive_file path h w) = true).
  { apply receive_file_finishes. rewrite Hsize, Nat2Z.id. exact Hdel. }
  destruct (receive_file_spec path h w)
    as (data & Hdata & Hfiles & Hmax & Hfin & _).
  cbn zeta in *. destruct (Hfin Hdone) as [Hge Htx].
  assert (data = pre ++ b' :: suf) as ->.
  { rewrite Hrx in Hdata. apply app_inj_1 in Hdata; [symmetry; tauto|lia]. }
  split; [exact Hdone|]. split; [|rewrite Hfiles; apply lookup_insert_eq].
  rewrite Htx. unfold accepted. rewrite Hcrc.
  replace (crc32 (pre ++ b' :: suf) =? crc32 (pre ++ b :: suf)) with false.
  - rewrite andb_false_r. reflexivity.
  - symmetry. apply Z.eqb_neq. apply crc32_detects_one_byte. congruence.
Qed.

Lemma one_corrupted_byte_is_refused_witness :
  let sent := bytes_of "ab" ++ "c"%byte :: bytes_of "defgh" in
  let got := bytes_of "ab" ++ "X"%byte :: bytes_of "defgh" in
  let w := line_with (got ++ []) [3; 0; 5]%nat in
  let h := Header "a.wav" (Z.of_nat (length sent)) (Some (crc32 sent)) in
  tx (ser (fst (receive_file (pc_path "a.wav") h w))) = NACK /\
  files (fst (receive_file (pc_path "a.wav") h w)) !! pc_path "a.wav"
    = Some got.
Proof.
  intros sent got w h.
  assert (Hne : "c"%byte <> "X"%byte) by discriminate.
  assert (Hdel : delivers (length sent) (ser w))
    by (unfold delivers; simpl; lia).
  destruct (one_corrupted_byte_is_refused (pc_path "a.wav") h w
              (bytes_of "ab") (bytes_of "defgh") [] "c"%byte "X"%byte
              Hne eq_refl eq_refl eq_refl Hdel)
    as (_ & Htx & Hfile).
  split; [exact Htx|exact Hfile].
Defined.

(** X5: whatever a path held before, after a transfer to it, finished or
    not, it holds just the bytes read for this transfer, a prefix of what
    was on the line no longer than the declared size; a declared size of
    zero or less ends at once and leaves the file empty; and declared
    filenames with the same basename are written to the same path. *)
Theorem transfer_replaces_file (path : string) (h : header) (w : world) :
  (exists data,
     files (fst (receive_file path h w)) !! path = Some data /\
     rx (ser w) = data ++ rx (ser (fst (receive_file path h w))) /\
     Z.of_nat (length data) <= Z.max 0 (h_size h)) /\
  (h_size h <= 0 ->
   snd (receive_file path h w) = true /\
   files (fst (receive_file path h w)) !! path = Some []) /\
  (forall f1 f2,
     os_path_basename f1 = os_path_basename f2 ->
     pc_path f1 = pc_path f2 /\ micro_path f1 = micro_path f2).
Proof.
  destruct (receive_file_spec path h w)
    as (data & Hdata & Hfiles & Hmax & Hfin & _).
  cbn zeta in *. split; [|split].
  - exists data. split; [rewrite Hfiles; apply lookup_insert_eq|]. auto.
  - intros Hsize.
    assert (data = []) as -> by (destruct data; [reflexivity|simpl in *; lia]).
    split; [|rewrite Hfiles; apply lookup_insert_eq].
    apply receive_file_finishes. unfold delivers.
    replace (Z.to_nat (h_size h)) with 0%nat by lia. lia.
  - intros f1 f2 Hb. unfold pc_path, micro_path. rewrite Hb. auto.
Qed.

Lemma transfer_replaces_file_witness :
  let w := World (Serial (bytes_of "zz") [5%nat] [])
             {[ pc_path "a.wav" := bytes_of "precious" ]} [] in
  let h := Header "x/a.wav" 0 None in
  files (fst (receive_file (pc_path "x/a.wav") h w)) !! pc_path "a.wav"
    = Some [].
Proof.
  intros w h.
  destruct (transfer_replaces_file (pc_path "x/a.wav") h w)
    as (_ & Hzero & Hsame).
  destruct (Hzero ltac:(cbn; lia)) as [_ Hfile].
  destruct (Hsame "x/a.wav"%string "a.wav"%string eq_refl) as [Hp _].
  rewrite <- Hp. exact Hfile.
Defined.

Section LoopFacts.

Variable decode : list byte -> option string.
Variable strip : string -> string.
Variable py_int : string -> option Z.
Variable py_int0 : string -> option Z.
Variable process_day : gmap string (list byte) -> gmap string (list byte).

Lemma receive_file_short path h w :
  Z.of_nat (length (rx (ser w))) < h_size h ->
  snd (receive_file path h w) = false /\
  tx (ser (fst (receive_file path h w))) = tx (ser w).
Proof.
  intros Hshort.
  destruct (receive_file_spec path h w)
    as (data & Hdata & _ & _ & Hfin & Hnot).
  cbn zeta in *.
  destruct (snd (receive_file path h w)) eqn:E.
  - exfalso. destruct (Hfin eq_refl) as [Hge _].
    apply (f_equal length) in Hdata. rewrite length_app in Hdata. lia.
  - split; [reflexivity|]. apply Hnot. reflexivity.
Qed.

(** X4: when an accepted header declares more bytes than will ever come on
    the line, the payload loop never ends: the pc receiver writes neither
    ACK nor NACK, [uart_receiver] does not return whatever levels the pin
    takes afterwards, and [main], entered with the pin low, never gets past
    it. *)
Theorem short_payload_blocks_receiver (w : world) (text : string)
    (h : header) :
  fst (ser_readline (ser w)) <> [] ->
  decode (fst (ser_readline (ser w))) = Some text ->
  pc_parse_header py_int py_int0 (strip text) = Some h ->
  Z.of_nat (length (rx (snd (ser_readline (ser w))))) < h_size h ->
  (snd (receive_one decode strip py_int py_int0 w) = false /\
   tx (ser (fst (receive_one decode strip py_int py_int0 w))) = tx (ser w))
  /\
  (forall gpio,
     let r := uart_receiver decode strip py_int py_int0 (false :: gpio) w in
     r.2 = Hung /\ r.1.1 = gpio /\ tx (ser r.1.2) = tx (ser w)) /\
  (forall fuel gpio,
     let r := main_loop decode strip py_int py_int0 process_day (S fuel)
                (false :: false :: gpio) w in
     fst r = gpio /\ tx (ser (snd r)) = tx (ser w)).
Proof.
  intros Hline Hdec Hparse Hshort.
  assert (Hone : forall v,
            ser v = ser w ->
            snd (receive_one decode strip py_int py_int0 v) = false /\
            tx (ser (fst (receive_one decode strip py_int py_int0 v)))
              = tx (ser w)).
  { intros v Hv. unfold receive_one. rewrite Hv.
    destruct (ser_readline_spec (ser w)) as [_ Htx].
    destruct (ser_readline (ser w)) as [line s'] eqn:Eline.
    cbn [fst snd] in *. rewrite Hdec, Hparse.
    destruct line as [|b0 line]; [congruence|].
    rewrite <- Htx. apply receive_file_short. exact Hshort. }
  assert (Hloop : forall v gpio,
            ser v = ser w ->
            let r := receiver_loop decode strip py_int py_int0
                       (false :: gpio) v in
            r.2 = Hung /\ r.1.1 = gpio /\ tx (ser r.1.2) = tx (ser w)).
  { intros v gpio Hv. cbn [receiver_loop].
    destruct (Hone (emit (EvGpio false) v)) as [Hhung Htx]; [exact Hv|].
    destruct (receive_one _ _ _ _ _) as [w' fin]. cbn [fst snd] in *.
    subst fin. cbn. auto. }
  split; [apply Hone; reflexivity|]. split.
  - intros gpio. apply Hloop. reflexivity.
  - intros fuel gpio. cbn [main_loop]. unfold uart_receiver.
    destruct (Hloop (emit EvSerOpen (emit (EvGpio false) w)) gpio eq_refl)
      as (Hout & Hg & Htx).
    destruct (receiver_loop _ _ _ _ _ _) as [[gpio2 w'] out].
    cbn [fst snd] in *. subst out gpio2. cbn. auto.
Qed.

End LoopFacts.

Lemma short_payload_blocks_receiver_witness :
  let w := line_with (bytes_of "a.wav,10" ++ [newline] ++ bytes_of "abc")
                     [100; 100; 100]%nat in
  let gpio := [true; true; true] in
  (ascii_uart_receiver (false :: gpio) w).2 = Hung /\
  tx (ser (ascii_uart_receiver (false :: gpio) w).1.2) = [].
Proof.
  intros w gpio.
  destruct (short_payload_blocks_receiver ascii_decode ascii_strip ascii_int
              ascii_int0 (fun fs => fs) w
              ("a.wav,10" ++ String (ascii_of_byte newline) "")%string
              (Header "a.wav" 10 None))
    as (_ & Hloop & _).
  - discriminate.
  - reflexivity.
  - reflexivity.
  - vm_compute. reflexivity.
  - destruct (Hloop gpio) as (H1 & _ & H3).
    split; [exact H1|exact H3].
Defined.

Section ParserFacts.

Variable py_int : string -> option Z.
Variable py_int0 : string -> option Z.

(** X6: the two header parsers agree on every header the micro one
    accepts; a header the pc parser accepts and the micro one rejects has a
    third field that is no integer literal, and the pc parser takes it as
    declaring no checksum; neither looks beyond the third field. *)
Theorem parsers_agree_up_to_checksum (text : string) :
  (forall h,
     micro_parse_header py_int py_int0 text = Some h ->
     pc_parse_header py_int py_int0 text = Some h) /\
  (forall h,
     pc_parse_header py_int py_int0 text = Some h ->
     micro_parse_header py_int py_int0 text = Some h \/
     micro_parse_header py_int py_int0 text = None /\
     h_crc h = None /\
     exists c, split_comma text !! 2%nat = Some c /\ py_int0 c = None) /\
  (forall text',
     take 3 (split_comma text') = take 3 (split_comma text) ->
     pc_parse_header py_int py_int0 text'
       = pc_parse_header py_int py_int0 text /\
     micro_parse_header py_int py_int0 text'
       = micro_parse_header py_int py_int0 text).
Proof.
  unfold pc_parse_header, micro_parse_header. split; [|split].
  - intros h. destruct (split_comma text) as [|f [|sz more]];
      try discriminate.
    destruct (py_int sz) as [n|]; [|discriminate].
    destruct more as [|c more]; [auto|].
    destruct (py_int0 c) as [v|]; [auto|discriminate].
  - intros h. destruct (split_comma text) as [|f [|sz more]];
      try discriminate.
    destruct (py_int sz) as [n|]; [|discriminate].
    destruct more as [|c more]; [auto|].
    destruct (py_int0 c) as [v|] eqn:Ec; [auto|].
    intros [= <-]. right. cbn. eauto.
  - intros text' Htake.
    destruct (split_comma text) as [|f [|sz [|c more]]],
             (split_comma text') as [|f' [|sz' [|c' more']]];
      cbn in Htake; simplify_eq; auto.
Qed.

End ParserFacts.

Example parsers_differ_on_bad_checksum :
  pc_parse_header ascii_int ascii_int0 "a.wav,3,zz"
    = Some (Header "a.wav" 3 None) /\
  micro_parse_header ascii_int ascii_int0 "a.wav,3,zz" = None /\
  micro_parse_header ascii_int ascii_int0 "a.wav,3,0x10,more"
    = Some (Header "a.wav" 3 (Some 16)).
Proof. vm_compute. repeat split. Qed.

(** *** The mode loop: debounce and replies *)

Lemma run_phase_last ph pre e ph' :
  run_phase ph (pre ++ [e]) = Some ph' ->
  exists ph1, run_phase ph pre = Some ph1 /\ phase_step ph1 e = Some ph'.
Proof.
  intros H. apply run_phase_split in H as (ph1 & ph2 & H1 & H2 & H3).
  cbn in H3. injection H3 as <-. eauto.
Qed.

Lemma phase_step_into ph e ph' :
  phase_step ph e = Some ph' ->
  match ph' with
  | Confirmed => ph = Debounce /\ e = EvGpio true
  | Debounce => ph = Idle /\ e = EvGpio true
  | Resuming => ph = Processing /\ e = EvGpio false
  | Starting => ph = Idle /\ e = EvGpio false
  | _ => True
  end.
Proof.
  destruct ph as [| | | | | |[|]| | |path|];
    destruct e as [[|]| | | | | | | | |]; cbn;
    try discriminate; try (intros [= <-]; auto);
    destruct (String.eqb path path0); try discriminate;
    intros [= <-]; auto.
Qed.

Lemma phase_step_from ph e ph' :
  phase_step ph e = Some ph' ->
  match e with
  | EvEnterProcessing => ph = Confirmed
  | EvLeaveProcessing => ph = Resuming
  | EvSerOpen => ph = Starting
  | _ => True
  end.
Proof.
  destruct ph as [| | | | | |[|]| | |path|];
    destruct e as [[|]| | | | | | | | |]; cbn;
    try discriminate; auto.
Qed.

Lemma ends_with_reading ph0 pre ph b :
  run_phase ph0 pre = Some ph ->
  ph0 <> ph ->
  match ph with
  | Confirmed | Debounce => b = true
  | Resuming | Starting => b = false
  | _ => False
  end ->
  exists pre' ph1,
    pre = pre' ++ [EvGpio b] /\ run_phase ph0 pre' = Some ph1 /\
    phase_step ph1 (EvGpio b) = Some ph.
Proof.
  intros Hrun Hne Hb.
  destruct pre as [|e0 pre0] using rev_ind.
  - cbn in Hrun. congruence.
  - clear IHpre0. apply run_phase_last in Hrun as (ph1 & H1 & H2).
    pose proof (phase_step_into _ _ _ H2) as Hinto.
    exists pre0, ph1.
    destruct ph; try contradiction; destruct Hinto as [-> ->]; subst b;
      auto.
Qed.

Section ModeLoopFacts.

Variable decode : list byte -> option string.
Variable strip : string -> string.
Variable py_int : string -> option Z.
Variable py_int0 : string -> option Z.
Variable process_day : gmap string (list byte) -> gmap string (list byte).

(** X7: in every run of [main], State B is entered only right after two
    consecutive high readings of the pin, so a high reading followed by a
    low one starts no processing; State B is left only right after a low
    reading; and the serial port is opened only right after a low
    reading. *)
Theorem processing_needs_two_high_readings (fuel : nat) (gpio : list bool)
    (w : world) :
  exists evs,
    log (snd (main_loop decode strip py_int py_int0 process_day fuel gpio w))
      = log w ++ evs /\
    (forall pre post,
       evs = pre ++ EvEnterProcessing :: post ->
       exists pre', pre = pre' ++ [EvGpio true; EvGpio true]) /\
    (forall pre post,
       evs = pre ++ EvLeaveProcessing :: post ->
       exists pre', pre = pre' ++ [EvGpio false]) /\
    (forall pre post,
       evs = pre ++ EvSerOpen :: post ->
       exists pre', pre = pre' ++ [EvGpio false]).
Proof.
  destruct (main_loop_continues decode strip py_int py_int0 process_day
              fuel gpio w) as (ph & evs & Hlog & Hrun).
  exists evs. split; [exact Hlog|]. split; [|split].
  - intros pre post ->.
    apply run_phase_split in Hrun as (ph1 & ph2 & Hpre & Hstep & _).
    apply phase_step_from in Hstep. subst ph1.
    destruct (ends_with_reading Idle pre Confirmed true Hpre)
      as (pre1 & ph1 & -> & Hpre1 & Hstep1); [discriminate|reflexivity|].
    apply phase_step_into in Hstep1 as [-> _].
    destruct (ends_with_reading Idle pre1 Debounce true Hpre1)
      as (pre2 & ph2' & -> & _ & _); [discriminate|reflexivity|].
    exists pre2. rewrite <- app_assoc. reflexivity.
  - intros pre post ->.
    apply run_phase_split in Hrun as (ph1 & ph2 & Hpre & Hstep & _).
    apply phase_step_from in Hstep. subst ph1.
    destruct (ends_with_reading Idle pre Resuming false Hpre)
      as (pre1 & ph1 & -> & _ & _); [discriminate|reflexivity|].
    exists pre1. reflexivity.
  - intros pre post ->.
    apply run_phase_split in Hrun as (ph1 & ph2 & Hpre & Hstep & _).
    apply phase_step_from in Hstep. subst ph1.
    destruct (ends_with_reading Idle pre Starting false Hpre)
      as (pre1 & ph1 & -> & _ & _); [discriminate|reflexivity|].
    exists pre1. reflexivity.
Qed.

Lemma receive_one_reply w :
  exists replies,
    tx (ser (fst (receive_one decode strip py_int py_int0 w)))
      = tx (ser w) ++ concat replies /\
    Forall is_reply replies.
Proof.
  assert (Hskip : forall v : world, tx (ser v) = tx (ser w) ->
            exists replies,
              tx (ser v) = tx (ser w) ++ concat replies /\
              Forall is_reply replies).
  { intros v Hv. exists []. cbn. rewrite app_nil_r. auto. }
  unfold receive_one.
  destruct (ser_readline_spec (ser w)) as [_ Htx].
  destruct (ser_readline (ser w)) as [line s']. cbn [fst snd] in Htx.
  destruct line as [|b0 line]; [by apply Hskip|].
  destruct (decode _) as [text|]; [|by apply Hskip].
  destruct (pc_parse_header _ _ _) as [h|]; [|by apply Hskip].
  set (w1 := emit _ _).
  destruct (receive_file_spec (pc_path (h_filename h)) h w1)
    as (data & _ & _ & _ & Hfin & Hnot).
  cbn zeta in *.
  destruct (snd (receive_file (pc_path (h_filename h)) h w1)).
  - destruct (Hfin eq_refl) as [_ Hreply]. rewrite Hreply.
    exists [if accepted h data then ACK else NACK]. cbn.
    rewrite app_nil_r. split; [by rewrite <- Htx|].
    constructor; [|constructor]. unfold is_reply.
    destruct (accepted h data); auto.
  - apply Hskip. rewrite (Hnot eq_refl). exact Htx.
Qed.

Lemma receiver_loop_replies gpio w :
  exists replies,
    tx (ser (receiver_loop decode strip py_int py_int0 gpio w).1.2)
      = tx (ser w) ++ concat replies /\
    Forall is_reply replies.
Proof.
  revert w. induction gpio as [|[|] gpio IH]; intros w;
    cbn [receiver_loop].
  - exists []. cbn. rewrite app_nil_r. auto.
  - exists []. cbn. rewrite app_nil_r. auto.
  - destruct (receive_one_reply (emit (EvGpio false) w))
      as (r1 & Htx1 & Hr1).
    destruct (receive_one _ _ _ _ _) as [w' [|]]; cbn [fst snd] in *.
    + destruct (IH w') as (r2 & Htx2 & Hr2).
      exists (r1 ++ r2). rewrite Htx2, Htx1, concat_app, app_assoc.
      split; [reflexivity|]. by apply Forall_app.
    + exists r1. auto.
Qed.

Lemma wait_low_ser gpio w : ser (wait_low gpio w).1.2 = ser w.
Proof.
  revert w. induction gpio as [|[|] gpio IH]; intros w; cbn [wait_low];
    try reflexivity.
  rewrite IH. reflexivity.
Qed.

(** X8: in every run of [main], all that is written on the serial line is
    a sequence of ACK and NACK lines. *)
Theorem only_replies_on_the_line (fuel : nat) (gpio : list bool)
    (w : world) :
  exists replies,
    tx (ser (snd (main_loop decode strip py_int py_int0 process_day fuel
                    gpio w)))
      = tx (ser w) ++ concat replies /\
    Forall (fun r => r = ACK \/ r = NACK) replies.
Proof.
  revert gpio w. induction fuel as [|fuel IH]; intros gpio w;
    cbn [main_loop].
  - exists []. cbn. rewrite app_nil_r. auto.
  - destruct gpio as [|[|] gpio1].
    + exists []. cbn. rewrite app_nil_r. auto.
    + destruct gpio1 as [|[|] gpio2]; cbn [snd].
      * exists []. cbn. rewrite app_nil_r. auto.
      * set (w3 := World _ _ _).
        pose proof (wait_low_ser gpio2 w3) as Hser.
        destruct (wait_low gpio2 w3) as [[gpio3 w4] [|]];
          cbn [fst snd] in *.
        -- destruct (IH gpio3 (emit EvLeaveProcessing w4))
             as (r & Htx & Hr).
           exists r. rewrite Htx. cbn [emit ser]. rewrite Hser.
           auto.
        -- exists []. cbn. rewrite app_nil_r, Hser. auto.
      * apply (IH gpio2 (emit (EvGpio false) (emit (EvGpio true) w))).
    + unfold uart_receiver.
      destruct (receiver_loop_replies gpio1
                  (emit EvSerOpen (emit (EvGpio false) w)))
        as (r1 & Htx1 & Hr1).
      destruct (receiver_loop _ _ _ _ _ _) as [[gpio2 w'] out];
        cbn [fst snd] in *.
      destruct out; cbn [snd]; [|exists r1; auto..].
      destruct (IH gpio2 w') as (r2 & Htx2 & Hr2).
      exists (r1 ++ r2). rewrite Htx2, Htx1, concat_app, app_assoc.
      split; [reflexivity|]. by apply Forall_app.
Qed.

End ModeLoopFacts.

End ReceiverExtras.

(** ** vox_recorder.py: invariants of the callback *)

Module VoxRecorderExtras.

Import VoxRecorder VoxRecorderProofs Notions.

Lemma count_speech_app frs1 frs2 :
  count_speech (frs1 ++ frs2) = count_speech frs1 + count_speech frs2.
Proof.
  unfold count_speech. rewrite filter_app, length_app. lia.
Qed.

Lemma count_speech_nonneg frs : 0 <= count_speech frs.
Proof. unfold count_speech. lia. Qed.

Lemma save_audio_gate frames count files :
  save_audio frames count files =
  if count <? 167 then files else files ++ [frames].
Proof.
  unfold save_audio.
  destruct (Qltb (speech_duration count) min_speech_duration) eqn:E.
  - apply gate_frames in E. apply Z.ltb_lt in E. rewrite E. reflexivity.
  - destruct (Z.ltb_spec count 167) as [Hlt|Hge]; [|reflexivity].
    apply gate_frames in Hlt. congruence.
Qed.

Lemma deque_append_length {A} n (d : list A) x :
  (length d <= n)%nat -> (length (deque_append n d x) <= n)%nat.
Proof.
  intros H. rewrite deque_append_last_n by exact H. apply last_n_length.
Qed.

Lemma state_ok_callback frs st fr :
  state_ok frs st -> state_ok (frs ++ [fr]) (callback st fr).
Proof.
  destruct st as [rec buf pre sil cnt sav].
  destruct fr as [pcm sp now].
  unfold state_ok. rewrite count_speech_snoc.
  cbn [recording audio_buffer pre_speech_buffer silence_start_time
       speech_frame_count saved f_is_speech].
  intros (Hpre & Hcount & Hsaved & Hstate).
  unfold callback, silence_frame.
  cbn [recording silence_start_time f_pcm f_is_speech f_now].
  destruct sp.
  - (* speech *)
    destruct rec;
      cbn [speech_frame start_recording recording audio_buffer
           pre_speech_buffer silence_start_time speech_frame_count saved];
      rewrite ?length_app; cbn [length];
      repeat split; try assumption; try (destruct sil; lia).
  - destruct rec.
    + (* silence while recording *)
      destruct Hstate as [Hone Hbuf].
      destruct sil as [t0|].
      * destruct (Qltb silence_threshold (now - t0)).
        -- cbn [finalize recording audio_buffer pre_speech_buffer
                silence_start_time speech_frame_count saved].
           rewrite save_audio_gate.
           destruct (Z.ltb_spec cnt 167) as [Hlt|Hge].
           ++ repeat split; try assumption; try lia.
           ++ rewrite length_app. cbn [length].
              split; [exact Hpre|]. split; [lia|].
              split; [|auto].
              apply Forall_app. split; [exact Hsaved|].
              constructor; [|constructor].
              rewrite finalize_frames_eq.
              cbn [audio_buffer]. rewrite !length_app, length_replicate.
              cbn [length]. rewrite post_speech_frames_val. lia.
        -- cbn [recording audio_buffer pre_speech_buffer
                silence_start_time speech_frame_count saved].
           rewrite length_app. cbn [length].
           repeat split; try assumption; try lia.
      * cbn [recording audio_buffer pre_speech_buffer
             silence_start_time speech_frame_count saved].
        rewrite length_app. cbn [length].
        repeat split; try assumption; try lia.
    + (* silence while idle *)
      cbn [idle_frame recording audio_buffer pre_speech_buffer
           silence_start_time speech_frame_count saved].
      split; [apply deque_append_length, Hpre|].
      repeat split; try tauto; try lia.
Qed.

Lemma state_ok_run frs : state_ok frs (run initial frs).
Proof.
  induction frs as [|fr frs IH] using rev_ind.
  - unfold state_ok, initial, run. cbn [fold_left].
    cbn [recording audio_buffer pre_speech_buffer silence_start_time
         speech_frame_count saved length].
    split; [apply Nat.le_0_l|].
    split; [pose proof (count_speech_nonneg []); lia|].
    split; [constructor|auto].
  - rewrite run_snoc. apply state_ok_callback, IH.
Qed.

(** X9: after any run of callbacks the pre-roll buffer holds at most 16
    frames; while idle the active buffer is empty and the speech counter
    zero; while recording the counter is at least 1 and counts no more
    frames than the active buffer holds. *)
Theorem buffers_stay_in_bounds (frs : list frame) :
  let st := run initial frs in
  (length (pre_speech_buffer st) <= 16)%nat /\
  (recording st = false ->
   audio_buffer st = [] /\ speech_frame_count st = 0 /\
   silence_start_time st = None) /\
  (recording st = true ->
   1 <= speech_frame_count st <= Z.of_nat (length (audio_buffer st))).
Proof.
  cbn zeta. destruct (state_ok_run frs) as (Hpre & _ & _ & Hstate).
  split; [exact Hpre|].
  destruct (recording (run initial frs)).
  - split; [discriminate|]. intros _.
    destruct (silence_start_time (run initial frs)); lia.
  - split; [intros _; exact Hstate|discriminate].
Qed.

(** X10: every saved file accounts for at least 167 speech frames of its
    own: the number of files saved during a run, times 167, is at most the
    number of speech frames received; a stream with fewer than 167 speech
    frames saves nothing. *)
Theorem saved_files_need_speech (frs : list frame) :
  167 * Z.of_nat (length (listen frs)) <= count_speech frs /\
  (count_speech frs < 167 -> listen frs = []).
Proof.
  unfold listen, on_keyboard_interrupt.
  destruct (state_ok_run frs) as (_ & Hcount & _ & Hstate).
  assert (H : 167 * Z.of_nat (length (saved (run initial frs)))
              <= count_speech frs).
  { destruct (recording (run initial frs)); lia. }
  split; [exact H|]. intros Hfew.
  destruct (saved (run initial frs)); [reflexivity|]. cbn [length] in H. lia.
Qed.

(** X11: every file saved holds at least 185 frames: 167 speech frames, the
    silent frame that started the timer, the one that ended the segment,
    and the 16 replayed ones. *)
Theorem saved_files_are_long (frs : list frame) (seg : list (list byte)) :
  In seg (listen frs) -> (185 <= length seg)%nat.
Proof.
  unfold listen, on_keyboard_interrupt. intros Hin.
  destruct (state_ok_run frs) as (_ & _ & Hsaved & _).
  rewrite Forall_forall in Hsaved. apply Hsaved.
  apply list_elem_of_In. exact Hin.
Qed.

Lemma saved_files_are_long_witness :
  let frs := speech_burst 167 ++ [silence_at 5010; silence_at 36000] in
  (185 <= length (nth 0 (listen frs) []))%nat.
Proof.
  intros frs.
  assert (Hlen : (0 < length (listen frs))%nat)
    by (vm_compute; constructor).
  exact (saved_files_are_long frs _ (nth_In (listen frs) [] Hlen)).
Defined.

Lemma trailing_silence_snoc frs fr :
  trailing_silence (frs ++ [fr]) =
  if f_is_speech fr then [] else trailing_silence frs ++ [fr].
Proof.
  induction frs as [|a frs IH].
  - cbn. destruct (f_is_speech fr); reflexivity.
  - cbn [app trailing_silence]. rewrite IH.
    change (forallb ?f (a :: ?l)) with (f a && forallb f l).
    rewrite forallb_app. cbn [forallb].
    destruct (f_is_speech fr); cbn [negb].
    + rewrite andb_false_r, andb_false_r. reflexivity.
    + rewrite !andb_true_r.
      destruct (negb (f_is_speech a) && forallb _ frs); reflexivity.
Qed.

Lemma silence_timer_callback frs st fr :
  (recording st = true ->
   silence_start_time st = f_now <$> head (trailing_silence frs)) ->
  recording (callback st fr) = true ->
  silence_start_time (callback st fr)
    = f_now <$> head (trailing_silence (frs ++ [fr])).
Proof.
  destruct st as [rec buf pre sil cnt sav].
  destruct fr as [pcm sp now].
  rewrite trailing_silence_snoc.
  unfold callback, silence_frame.
  cbn [recording silence_start_time f_pcm f_is_speech f_now].
  intros Hst. destruct sp.
  - destruct rec; reflexivity.
  - destruct rec.
    + specialize (Hst eq_refl). destruct sil as [t0|].
      * destruct (Qltb silence_threshold (now - t0)).
        -- cbn. discriminate.
        -- intros _. cbn [silence_start_time]. rewrite Hst.
           destruct (trailing_silence frs); [discriminate|reflexivity].
      * intros _. cbn [silence_start_time].
        destruct (trailing_silence frs); [reflexivity|discriminate].
    + cbn. discriminate.
Qed.

(** X12: while a segment is being recorded, the silence timer is unset
    exactly when the last frame was speech, and otherwise holds the time
    read at the first non-speech frame after the last speech frame: the
    non-speech frames that follow do not restart it. *)
Theorem silence_timer_is_anchored (frs : list frame) :
  let st := run initial frs in
  recording st = true ->
  silence_start_time st = f_now <$> head (trailing_silence frs).
Proof.
  cbn zeta. induction frs as [|fr frs IH] using rev_ind.
  - cbn. discriminate.
  - rewrite run_snoc. apply silence_timer_callback. exact IH.
Qed.

Lemma silence_timer_is_anchored_witness :
  let frs := speech_burst 3 ++ [silence_at 100; silence_at 130] in
  silence_start_time (run initial frs) = Some (f_now (silence_at 100)).
Proof.
  intros frs. exact (silence_timer_is_anchored frs eq_refl).
Defined.

End VoxRecorderExtras.
